(** * audioplayer: the playback controller of [audioplayer.go]

    A shallow embedding of the Go package [audioplayer]: the controller
    [AudioPlayer] with its methods [Start], [Stop] and [Close], the
    constructor [NewAudioPlayer], the package variable [ffmpegPath], and
    the context-aware reader [readerCtx].

    The controller is a Go object mutated in place and everything it does
    is an effect on the outside (a child process, the oto audio device, a
    cancellation context), so the methods are written in a state monad over
    a [World]: the controller's fields, the package variable, a handle
    allocator and the chronological trace of the calls made to [os/exec],
    [context], [sync] and [oto].  What those libraries answer to the three
    calls that can fail is given to [Start] as an [Outcome].

    The model of the controller is the sequential one: calls run one
    after the other, none beginning before the one before has returned.
    The mutex [ap.mu] and the wait that may not return are modelled
    apart, over the same methods. *)

From Stdlib Require Import String Ascii List ZArith Lia Bool PeanoNat.
From Stdlib Require Import PrimFloat SpecFloat FloatOps DecimalString DecimalZ.
From ExtLib Require Import Structures.Monad Structures.MonadState.
From ExtLib Require Import Data.Monads.StateMonad.
Import ListNotations.
Import MonadNotation.
Local Open Scope string_scope.
Local Open Scope list_scope.
Local Open Scope monad_scope.

(** ** The Go runtime, as far as the package uses it *)

Module Go.

(** [error]: a plain message, or [fmt.Errorf] with the verb [%w], which
    keeps the wrapped cause. *)
Inductive error : Type :=
| errorString (s : string)
| wrapError (msg : string) (err : error).

Definition Error (e : error) : string :=
  match e with
  | errorString s => s
  | wrapError msg _ => msg
  end.

Definition Unwrap (e : error) : option error :=
  match e with
  | errorString _ => None
  | wrapError _ err => Some err
  end.

(** [fmt.Errorf(what + ": %w", err)] *)
Definition Errorf (what : string) (err : error) : error :=
  wrapError (what ++ ": " ++ Error err)%string err.

(** [context.Canceled] *)
Definition Canceled : error := errorString "context canceled".

(** [strconv.Itoa] on an [int]: decimal digits, a leading minus sign for
    negative numbers. *)
Definition Itoa (i : Z) : string := NilZero.string_of_int (Z.to_int i).

(** [strconv.Atoi], the inverse reading; [None] is the syntax error. *)
Definition Atoi (s : string) : option Z :=
  option_map Z.of_int (NilZero.int_of_string s).

(** Objects the libraries hand out are named by handles. *)
Definition handle : Type := nat.

End Go.
Import Go.

(** ** [io.Reader] and the context-aware reader *)

(** A [Read(p []byte) (n int, err error)] on a reader in state [R]: the
    buffer after the call, the count, the error and the reader after the
    call. *)
Record ReadResult (R : Type) : Type := mkRead {
  rd_buf : list Byte.byte;
  rd_n : Z;
  rd_err : option error;
  rd_next : R
}.
Arguments mkRead {R} _ _ _ _.
Arguments rd_buf {R} _.
Arguments rd_n {R} _.
Arguments rd_err {R} _.
Arguments rd_next {R} _.

Class Reader (R : Type) : Type :=
  Read : R -> list Byte.byte -> ReadResult R.

(** A cancellation context made by [context.WithCancel]: it is shared
    between the reader and the holder of its cancel function, so the
    context is a handle and whether it was cancelled is read off the set
    of cancelled handles. *)
Definition ctx_Err (cancelled : list handle) (ctx : handle) : option error :=
  if existsb (Nat.eqb ctx) cancelled then Some Canceled else None.

Record readerCtx (R : Type) : Type := mkReaderCtx {
  ctx : handle;
  r : R
}.
Arguments mkReaderCtx {R} _ _.
Arguments ctx {R} _.
Arguments r {R} _.

(** [NewReader] *)
Definition NewReader {R : Type} (c : handle) (rd : R) : readerCtx R :=
  mkReaderCtx c rd.

(** The method [Read] of [readerCtx] *)
Definition readerCtx_Read {R : Type} `{Reader R}
    (cancelled : list handle) (rc : readerCtx R) (p : list Byte.byte)
  : ReadResult (readerCtx R) :=
  match ctx_Err cancelled (ctx rc) with
  | Some err => mkRead p 0 (Some err) rc
  | None =>
      let res := Read (r rc) p in
      mkRead (rd_buf res) (rd_n res) (rd_err res)
             (mkReaderCtx (ctx rc) (rd_next res))
  end.

(** A reader that counts how often its [Read] is entered, on top of any
    reader. *)
Record counting (R : Type) : Type := mkCounting {
  calls : nat;
  inner : R
}.
Arguments mkCounting {R} _ _.
Arguments calls {R} _.
Arguments inner {R} _.

#[export] Instance counting_Reader {R : Type} `{Reader R} : Reader (counting R) :=
  fun c p =>
    let res := Read (inner c) p in
    mkRead (rd_buf res) (rd_n res) (rd_err res)
           (mkCounting (S (calls c)) (rd_next res)).

(** A byte source: each read moves as many bytes as fit, and reports
    [io.EOF] once the source is empty. *)
Definition EOF : error := errorString "EOF".

Fixpoint fill (src p : list Byte.byte) : list Byte.byte * list Byte.byte * Z :=
  match src, p with
  | b :: src', _ :: p' =>
      let '(rest, out, n) := fill src' p' in (rest, b :: out, (n + 1)%Z)
  | _, _ => (src, p, 0%Z)
  end.

#[export] Instance bytes_Reader : Reader (list Byte.byte) :=
  fun src p =>
    match src with
    | [] => mkRead p 0 (Some EOF) []
    | _ => let '(rest, out, n) := fill src p in mkRead out n None rest
    end.

(** ** The world the controller acts on *)

(** [exec.Cmd]: the process it stands for, the executable and its
    arguments. *)
Record Cmd : Type := mkCmd {
  Process : handle;
  Path : string;
  Args : list string
}.

(** The calls that leave the package, in the order they are made. *)
Inductive event : Type :=
| EvCommand (cmd : Cmd)
| EvStdoutPipe (p : handle) (res : option error)
| EvWithCancel (c : handle)
| EvCmdStart (p : handle) (res : option error)
| EvNewContext (sampleRate channels bitDepth bufSize : Z) (res : handle + error)
| EvWgAdd (n : nat)
| EvNewPlayer (octx pl : handle)
| EvGo (pl : handle) (reader : readerCtx handle)
| EvWgDone
| EvCancel (c : handle)
| EvWgWait (n : nat)
| EvKill (p : handle)
| EvWait (p : handle)
| EvPlayerClose (pl : handle)
| EvContextClose (octx : handle).

(** [type AudioPlayer struct]; [wg] is the counter of the wait group, the
    mutex [mu] is what the sequential model stands for. *)
Record AudioPlayer : Type := mkAudioPlayer {
  wg : nat;
  cancelPlayback : option handle;
  ffmpegCmd : option Cmd;
  player : option handle;
  context : option handle;
  audioFile : string;
  speed : float;
  startTime : Z
}.

Definition set_wg (n : nat) (ap : AudioPlayer) : AudioPlayer :=
  mkAudioPlayer n (cancelPlayback ap) (ffmpegCmd ap) (player ap)
                (context ap) (audioFile ap) (speed ap) (startTime ap).

Definition set_cancelPlayback (c : option handle) (ap : AudioPlayer) : AudioPlayer :=
  mkAudioPlayer (wg ap) c (ffmpegCmd ap) (player ap)
                (context ap) (audioFile ap) (speed ap) (startTime ap).

Definition set_ffmpegCmd (c : option Cmd) (ap : AudioPlayer) : AudioPlayer :=
  mkAudioPlayer (wg ap) (cancelPlayback ap) c (player ap)
                (context ap) (audioFile ap) (speed ap) (startTime ap).

Definition set_player (p : option handle) (ap : AudioPlayer) : AudioPlayer :=
  mkAudioPlayer (wg ap) (cancelPlayback ap) (ffmpegCmd ap) p
                (context ap) (audioFile ap) (speed ap) (startTime ap).

Definition set_context (c : option handle) (ap : AudioPlayer) : AudioPlayer :=
  mkAudioPlayer (wg ap) (cancelPlayback ap) (ffmpegCmd ap) (player ap)
                c (audioFile ap) (speed ap) (startTime ap).

Record World : Type := mkWorld {
  self : AudioPlayer;
  ffmpegPath : string;
  next : handle;
  trace : list event
}.

(** What the three fallible library calls of one [Start] answer: [nil]
    or an error. *)
Record Outcome : Type := mkOutcome {
  pipeErr : option error;
  startErr : option error;
  otoErr : option error
}.

Definition allOk : Outcome := mkOutcome None None None.

Definition M : Type -> Type := state World.

Definition exec {A : Type} (m : M A) (w : World) : World := snd (runState m w).
Definition result {A : Type} (m : M A) (w : World) : A := fst (runState m w).

Definition emit (e : event) : M unit :=
  w <- get ;;
  put (mkWorld (self w) (ffmpegPath w) (next w) (trace w ++ [e])).

Definition alloc : M handle :=
  w <- get ;;
  put (mkWorld (self w) (ffmpegPath w) (S (next w)) (trace w)) ;;
  ret (next w).

Definition field {A : Type} (f : AudioPlayer -> A) : M A :=
  w <- get ;; ret (f (self w)).

Definition assign (f : AudioPlayer -> AudioPlayer) : M unit :=
  w <- get ;;
  put (mkWorld (f (self w)) (ffmpegPath w) (next w) (trace w)).

(** *** The library calls *)

Definition exec_Command (name : string) (arg : list string) : M Cmd :=
  p <- alloc ;;
  emit (EvCommand (mkCmd p name arg)) ;;
  ret (mkCmd p name arg).

(** [cmd.StdoutPipe()]: the read end of the pipe is named after the
    process. *)
Definition Cmd_StdoutPipe (o : Outcome) (cmd : Cmd) : M (handle + error) :=
  emit (EvStdoutPipe (Process cmd) (pipeErr o)) ;;
  ret (match pipeErr o with
       | Some err => inr err
       | None => inl (Process cmd)
       end).

(** [context.WithCancel(context.Background())]: the context and its
    cancel function share one handle. *)
Definition context_WithCancel : M (handle * handle) :=
  c <- alloc ;;
  emit (EvWithCancel c) ;;
  ret (c, c).

Definition Cmd_Start (o : Outcome) (cmd : Cmd) : M (option error) :=
  emit (EvCmdStart (Process cmd) (startErr o)) ;;
  ret (startErr o).

Definition oto_NewContext (o : Outcome) (sampleRate channels bitDepth bufSize : Z)
  : M (handle + error) :=
  match otoErr o with
  | Some err =>
      emit (EvNewContext sampleRate channels bitDepth bufSize (inr err)) ;;
      ret (inr err)
  | None =>
      c <- alloc ;;
      emit (EvNewContext sampleRate channels bitDepth bufSize (inl c)) ;;
      ret (inl c)
  end.

Definition Context_NewPlayer (octx : handle) : M handle :=
  pl <- alloc ;;
  emit (EvNewPlayer octx pl) ;;
  ret pl.

Definition wg_Add (n : nat) : M unit :=
  emit (EvWgAdd n) ;;
  assign (fun ap => set_wg (wg ap + n) ap).

Definition wg_Done : M unit :=
  emit EvWgDone ;;
  assign (fun ap => set_wg (pred (wg ap)) ap).

(** [ap.wg.Wait()] returns when the counter is zero.  The only holder of
    a count is the copying goroutine, whose reader was cancelled just
    before; its return and its [wg.Done()] are folded into the wait. *)
Definition wg_Wait : M unit :=
  n <- field wg ;;
  emit (EvWgWait n) ;;
  assign (set_wg 0).

(** *** The package *)

(** [SetFFmpegPath] *)
Definition SetFFmpegPath (path : string) : M unit :=
  w <- get ;;
  put (mkWorld (self w) path (next w) (trace w)).

(** [NewAudioPlayer] *)
Definition NewAudioPlayer (audioFile : string) (speed : float) (startTime : Z)
  : AudioPlayer :=
  mkAudioPlayer 0 None None None None audioFile speed startTime.

(** [Stop] *)
Definition Stop : M unit :=
  cp <- field cancelPlayback ;;
  match cp with
  | Some cancel => emit (EvCancel cancel)
  | None => ret tt
  end ;;
  wg_Wait ;;
  fc <- field ffmpegCmd ;;
  match fc with
  | Some cmd =>
      emit (EvKill (Process cmd)) ;;
      emit (EvWait (Process cmd)) ;;
      assign (set_ffmpegCmd None)
  | None => ret tt
  end ;;
  pl <- field player ;;
  match pl with
  | Some p =>
      emit (EvPlayerClose p) ;;
      assign (set_player None)
  | None => ret tt
  end.

(** [Close] *)
Definition Close : M unit :=
  Stop ;;
  oc <- field context ;;
  match oc with
  | Some c =>
      emit (EvContextClose c) ;;
      assign (set_context None)
  | None => ret tt
  end.

(** The world in which a controller has just been constructed: the
    package variable at its initial value, nothing allocated, nothing
    called. *)
Definition boot (ap : AudioPlayer) : World := mkWorld ap "ffmpeg" 0 [].

Section Strconv.

(** [strconv.FormatFloat(f, fmt, prec, bitSize)] belongs to the Go
    library; the package fixes its arguments, not its result. *)
Variable FormatFloat : float -> ascii -> Z -> Z -> string.

(** The argument list [Start] gives to [exec.Command]. *)
Definition ffmpegArgs (ap : AudioPlayer) : list string :=
  [ "-ss"; Itoa (startTime ap);
    "-i"; audioFile ap;
    "-filter:a"; ("atempo=" ++ FormatFloat (speed ap) "f"%char (-1) 64)%string;
    "-f"; "s16le";
    "-ar"; "44100";
    "-ac"; "2";
    "pipe:1" ].

(** [Start] *)
Definition Start (o : Outcome) : M (option error) :=
  fc <- field ffmpegCmd ;;
  match fc with
  | Some _ => Close
  | None => ret tt
  end ;;
  path <- gets ffmpegPath ;;
  ap <- field (fun ap => ap) ;;
  cmd <- exec_Command path (ffmpegArgs ap) ;;
  out <- Cmd_StdoutPipe o cmd ;;
  match out with
  | inr err => ret (Some (Errorf "create FFmpeg stdout pipe" err))
  | inl ffmpegOut =>
      '(c, cancel) <- context_WithCancel ;;
      assign (set_cancelPlayback (Some cancel)) ;;
      let reader := NewReader c ffmpegOut in
      serr <- Cmd_Start o cmd ;;
      match serr with
      | Some err => ret (Some (Errorf "start FFmpeg cmd" err))
      | None =>
          oc <- field context ;;
          made <- match oc with
                  | None =>
                      let bufferSizeInBytes := (4 * 1024)%Z in
                      res <- oto_NewContext o 44100 2 2 bufferSizeInBytes ;;
                      match res with
                      | inr err => ret (inr (Errorf "create oto context" err))
                      | inl octx =>
                          assign (set_context (Some octx)) ;;
                          ret (inl octx)
                      end
                  | Some octx => ret (inl octx)
                  end ;;
          match made with
          | inr err => ret (Some err)
          | inl octx =>
              wg_Add 1 ;;
              pl <- Context_NewPlayer octx ;;
              assign (set_player (Some pl)) ;;
              emit (EvGo pl reader) ;;
              assign (set_ffmpegCmd (Some cmd)) ;;
              ret None
          end
      end
  end.

(** The tail of the goroutine of [Start], reached when [io.Copy] returns:
    [ap.wg.Done()] unless a [Wait] has already counted it out, then
    [ap.Stop()]. *)
Definition copyReturns : M unit :=
  n <- field wg ;;
  match n with
  | O => ret tt
  | S _ => wg_Done
  end ;;
  Stop.

(** Sequences of calls on one controller. *)
Inductive call : Type :=
| CallStart (o : Outcome)
| CallStop
| CallClose
| CallSetFFmpegPath (path : string)
| CopyReturns.

Definition step (c : call) : M unit :=
  match c with
  | CallStart o => Start o ;; ret tt
  | CallStop => Stop
  | CallClose => Close
  | CallSetFFmpegPath path => SetFFmpegPath path
  | CopyReturns => copyReturns
  end.

Fixpoint run (cs : list call) (w : World) : World :=
  match cs with
  | [] => w
  | c :: cs' => run cs' (exec (step c) w)
  end.

(** The worlds one controller can be in when its calls do not overlap:
    constructed by [NewAudioPlayer], then any calls, each begun after the
    one before it has returned (the end of a copy goroutine counts as a
    call). *)
Definition reachable (w : World) : Prop :=
  exists (file : string) (sp : float) (t : Z) (cs : list call),
    w = run cs (boot (NewAudioPlayer file sp t)).

(** *** Start/Stop rounds *)

(** [n] rounds of Start then Stop, one [Outcome] for each Start. *)
Definition cycles (os : list Outcome) : list call :=
  flat_map (fun o => [CallStart o; CallStop]) os.

(** Every Start of the rounds returns [nil]. *)
Fixpoint startsOk (os : list Outcome) (w : World) : Prop :=
  match os with
  | [] => True
  | o :: os' =>
      result (Start o) w = None /\
      startsOk os' (exec Stop (exec (Start o) w))
  end.

End Strconv.

(** The documented range of [speed]: the comment on the field asks for a
    value between 0.5 and 2.0; a NaN is outside. *)
Definition outsideRange (s : float) : bool :=
  negb (PrimFloat.leb 0.5 s && PrimFloat.leb s 2).

(** ** A formatter for concrete runs *)

(** The exact decimal expansion of a float, as [%f] lays it out and
    without trailing zeros.  On the floats whose expansion has at most
    15 significant digits (0.5, 1, 1.25, 3, ...) this is what
    [strconv.FormatFloat(f, 'f', -1, 64)] prints, since no two decimals
    that short read back as the same float; it is used where a run needs
    an actual formatter. *)
Fixpoint trimZeros (s : string) : string :=
  match s with
  | EmptyString => EmptyString
  | String c s' =>
      match trimZeros s' with
      | EmptyString =>
          if Ascii.eqb c "0" then EmptyString else String c EmptyString
      | rest => String c rest
      end
  end.

Definition fraction (k : Z) (n : Z) : string :=
  match Itoa (10 ^ k + n mod 10 ^ k) with
  | String _ digits => trimZeros digits
  | EmptyString => EmptyString
  end.

Definition exactDecimal (x : float) (fmt : ascii) (prec bitSize : Z) : string :=
  match Prim2SF x with
  | S754_nan => "NaN"
  | S754_infinity s => if s then "-Inf" else "+Inf"
  | S754_zero s => if s then "-0" else "0"
  | S754_finite s m e =>
      let sign := if s then "-" else "" in
      let n := (if 0 <=? e then Zpos m * 2 ^ e else Zpos m * 5 ^ (- e))%Z in
      let k := (if 0 <=? e then 0 else - e)%Z in
      let frac := fraction k n in
      (sign ++ Itoa (n / 10 ^ k) ++
       match frac with
       | EmptyString => ""
       | _ => "." ++ frac
       end)%string
  end.

(** ** Reading the trace *)

(** The events a run has added: what [w'] has after the trace of [w]. *)
Definition since (w w' : World) : list event :=
  skipn (length (trace w)) (trace w').

Definition countEv (f : event -> bool) (tr : list event) : nat :=
  length (filter f tr).

Definition isNewContext (e : event) : bool :=
  match e with EvNewContext _ _ _ _ _ => true | _ => false end.

Definition isContextClose (e : event) : bool :=
  match e with EvContextClose _ => true | _ => false end.

Definition isCommand (e : event) : bool :=
  match e with EvCommand _ => true | _ => false end.

Definition isKill (p : handle) (e : event) : bool :=
  match e with EvKill q => Nat.eqb p q | _ => false end.

Definition isWait (p : handle) (e : event) : bool :=
  match e with EvWait q => Nat.eqb p q | _ => false end.

(** Events that end something: a process killed or waited for, a player
    or an output context closed. *)
Definition isTeardown (e : event) : bool :=
  match e with
  | EvKill _ | EvWait _ | EvPlayerClose _ | EvContextClose _ => true
  | _ => false
  end.

(** The handles cancelled so far, for [ctx_Err]. *)
Definition cancelled (tr : list event) : list handle :=
  flat_map (fun e => match e with EvCancel c => [c] | _ => [] end) tr.

(** ** What the calls do, and the states they keep to *)

(** What [Stop] calls, and the controller it leaves. *)
Definition stopEvents (ap : AudioPlayer) : list event :=
  match cancelPlayback ap with Some c => [EvCancel c] | None => [] end ++
  [EvWgWait (wg ap)] ++
  match ffmpegCmd ap with
  | Some cmd => [EvKill (Process cmd); EvWait (Process cmd)]
  | None => []
  end ++
  match player ap with Some p => [EvPlayerClose p] | None => [] end.

Definition stopped (ap : AudioPlayer) : AudioPlayer :=
  mkAudioPlayer 0 (cancelPlayback ap) None None
                (context ap) (audioFile ap) (speed ap) (startTime ap).

Definition closeEvents (ap : AudioPlayer) : list event :=
  stopEvents ap ++
  match context ap with Some c => [EvContextClose c] | None => [] end.

(** Calls other than [Start]. *)
Definition isStart (c : call) : bool :=
  match c with CallStart _ => true | _ => false end.

(** A controller without process handle has no player and no pending
    count, and its output context is a handle already given out. *)
Definition wf (w : World) : Prop :=
  (ffmpegCmd (self w) = None -> player (self w) = None /\ wg (self w) = 0) /\
  (forall c, context (self w) = Some c -> c < next w).

(** A process no one holds: its handle was given out, the controller
    holds another or none, and it has been neither killed nor waited
    for. *)
Definition orphan (p : handle) (w : World) : Prop :=
  p < next w /\
  (forall cmd, ffmpegCmd (self w) = Some cmd -> Process cmd <> p) /\
  countEv (isKill p) (trace w) = 0 /\
  countEv (isWait p) (trace w) = 0.

(** The record of kills and waits: a held process is below the next
    handle and untouched; handles not yet given out are untouched; every
    process is waited for as often as killed, and at most once. *)
Definition reaping (w : World) : Prop :=
  (forall cmd, ffmpegCmd (self w) = Some cmd ->
               Process cmd < next w /\
               countEv (isKill (Process cmd)) (trace w) = 0) /\
  (forall p, next w <= p -> countEv (isKill p) (trace w) = 0) /\
  (forall p, countEv (isWait p) (trace w) = countEv (isKill p) (trace w) /\
             countEv (isKill p) (trace w) <= 1).

(** ** Concrete worlds *)

(** The controller of the usual scenario and three worlds it gets to:
    playing, after a Start whose process start failed, and after a Start
    whose context creation failed. *)
Definition track : AudioPlayer := NewAudioPlayer "track.mp3" 1 0.

Definition notFound : Outcome :=
  mkOutcome None (Some (errorString "executable file not found in $PATH")) None.

Definition deviceBusy : Outcome :=
  mkOutcome None None (Some (errorString "device or resource busy")).

Definition playing : World := exec (Start exactDecimal allOk) (boot track).

Definition failed : World := exec (Start exactDecimal notFound) (boot track).

(** A counting source of three bytes and a buffer of two, for the
    reader of the playing session. *)
Definition source : counting (list Byte.byte) :=
  mkCounting 0 [Byte.x01; Byte.x02; Byte.x03].

Definition buffer : list Byte.byte := [Byte.x00; Byte.x00].

(** ** More readings of the trace *)

Definition isNewPlayer (e : event) : bool :=
  match e with EvNewPlayer _ _ => true | _ => false end.

Definition isPlayerClose (e : event) : bool :=
  match e with EvPlayerClose _ => true | _ => false end.

(** A call of [oto.NewContext] that returned a context. *)
Definition isContextMade (e : event) : bool :=
  match e with EvNewContext _ _ _ _ (inl _) => true | _ => false end.

(** What a field counts for: 1 if it holds something, 0 if it is nil. *)
Definition held {A : Type} (o : option A) : nat :=
  match o with Some _ => 1 | None => 0 end.

(** A controller that holds a process handle holds a player, an output
    context and a cancel function too; at most one goroutine is counted. *)
Definition whole (w : World) : Prop :=
  wg (self w) <= 1 /\
  (ffmpegCmd (self w) <> None ->
   player (self w) <> None /\ context (self w) <> None /\
   cancelPlayback (self w) <> None).

(** Every reader given to a copy goroutine has its context cancelled,
    but for the reader of the session the controller holds, whose cancel
    function is the one in [cancelPlayback]. *)
Definition readersDone (w : World) : Prop :=
  forall (pl : handle) (rd : readerCtx handle),
    In (EvGo pl rd) (trace w) ->
    In (ctx rd) (cancelled (trace w)) \/
    (ffmpegCmd (self w) <> None /\ cancelPlayback (self w) = Some (ctx rd)).

(** A cancel function that is out of reach: made, not the one the
    controller holds, and not called. *)
Definition lost (k : handle) (w : World) : Prop :=
  k < next w /\
  cancelPlayback (self w) <> Some k /\
  ~ In k (cancelled (trace w)).

(** Players and output contexts: as many made as closed, but for the one
    held. *)
Definition balanced (w : World) : Prop :=
  countEv isNewPlayer (trace w) =
    countEv isPlayerClose (trace w) + held (player (self w)) /\
  countEv isContextMade (trace w) =
    countEv isContextClose (trace w) + held (context (self w)).

Definition isSetPath (c : call) : bool :=
  match c with CallSetFFmpegPath _ => true | _ => false end.

(** The handles of cancel functions stay below the next handle. *)
Definition tokens (w : World) : Prop :=
  (forall k, cancelPlayback (self w) = Some k -> k < next w) /\
  (forall k, In k (cancelled (trace w)) -> k < next w).

(** Every process killed, and the one held, was started. *)
Definition started (w : World) : Prop :=
  forall p : handle,
    In (EvKill p) (trace w) \/ In (EvWait p) (trace w) \/
    (exists cmd, ffmpegCmd (self w) = Some cmd /\ Process cmd = p) ->
    In (EvCmdStart p None) (trace w).

(** The same controller with another speed. *)
Definition withSpeed (sp : float) (ap : AudioPlayer) : AudioPlayer :=
  mkAudioPlayer (wg ap) (cancelPlayback ap) (ffmpegCmd ap) (player ap)
                (context ap) (audioFile ap) sp (startTime ap).

Section StrconvSpeed.

Variable FormatFloat : float -> ascii -> Z -> Z -> string.

(** A command, and an event, with the arguments that the configuration
    [ap] gives. *)
Definition recmd (ap : AudioPlayer) (cmd : Cmd) : Cmd :=
  mkCmd (Process cmd) (Path cmd) (ffmpegArgs FormatFloat ap).

Definition reev (ap : AudioPlayer) (e : event) : event :=
  match e with
  | EvCommand cmd => EvCommand (recmd ap cmd)
  | _ => e
  end.

(** The world as it would be had the controller been constructed with
    the speed [sp]: the field, and the arguments of the commands held and
    built. *)
Definition respeed (sp : float) (w : World) : World :=
  mkWorld
    (set_ffmpegCmd
       (option_map (recmd (withSpeed sp (self w))) (ffmpegCmd (self w)))
       (withSpeed sp (self w)))
    (ffmpegPath w) (next w)
    (map (reev (withSpeed sp (self w))) (trace w)).

End StrconvSpeed.

(** ** The mutex and the wait *)

(** [ap.mu], held or free, beside the world. *)
Record Guarded : Type := mkGuarded {
  mu : bool;
  world : World
}.

(** How a method, run by one caller with no other caller about, ends:
    it returns; or it never returns, because it waits in [wg.Wait()] for
    a goroutine whose pending read of the pipe does not end, or because
    it locks a mutex that is held; or the Go runtime stops the program
    at the [Unlock] of a free mutex. *)
Inductive ending (A : Type) : Type :=
| Returns (a : A) (g : Guarded)
| HangsInWait (g : Guarded)
| HangsOnLock (g : Guarded)
| UnlockOfFree (g : Guarded).
Arguments Returns {A} _ _.
Arguments HangsInWait {A} _.
Arguments HangsOnLock {A} _.
Arguments UnlockOfFree {A} _.

Definition L (A : Type) : Type := Guarded -> ending A.

#[export] Instance Monad_L : Monad L := {
  ret := fun _ a g => Returns a g;
  bind := fun _ _ m k g =>
            match m g with
            | Returns a g' => k a g'
            | HangsInWait g' => HangsInWait g'
            | HangsOnLock g' => HangsOnLock g'
            | UnlockOfFree g' => UnlockOfFree g'
            end
}.

Definition mu_Lock : L unit :=
  fun g => if mu g then HangsOnLock g
           else Returns tt (mkGuarded true (world g)).

Definition mu_Unlock : L unit :=
  fun g => if mu g then Returns tt (mkGuarded false (world g))
           else UnlockOfFree g.

(** A piece of a method that works on the world. *)
Definition act {A : Type} (m : M A) : L A :=
  fun g => let (a, w') := runState m (world g) in
           Returns a (mkGuarded (mu g) w').

(** [ap.wg.Wait()]: it returns at once when the counter is zero;
    otherwise it returns when the goroutine counted has returned from
    [io.Copy], which it does when the read it may be in ends ([readEnds]),
    its reader being cancelled; and if that read never ends, neither does
    the wait. *)
Definition wg_Wait_mu (readEnds : bool) : L unit :=
  fun g =>
    match wg (self (world g)) with
    | O => act wg_Wait g
    | S _ => if readEnds then act wg_Wait g else HangsInWait g
    end.

(** [Stop] before its wait: the call of the cancel function. *)
Definition cancelSession : M unit :=
  cp <- field cancelPlayback ;;
  match cp with
  | Some cancel => emit (EvCancel cancel)
  | None => ret tt
  end.

(** [Stop] after its wait: process and player. *)
Definition release : M unit :=
  fc <- field ffmpegCmd ;;
  match fc with
  | Some cmd =>
      emit (EvKill (Process cmd)) ;;
      emit (EvWait (Process cmd)) ;;
      assign (set_ffmpegCmd None)
  | None => ret tt
  end ;;
  pl <- field player ;;
  match pl with
  | Some p =>
      emit (EvPlayerClose p) ;;
      assign (set_player None)
  | None => ret tt
  end.

(** [Close] after its call of [Stop]. *)
Definition closeContext : M unit :=
  oc <- field context ;;
  match oc with
  | Some c =>
      emit (EvContextClose c) ;;
      assign (set_context None)
  | None => ret tt
  end.

(** [Stop] with its lock and its wait: [Lock], the cancel, the wait,
    the release, and the deferred [Unlock]. *)
Definition Stop_mu (readEnds : bool) : L unit :=
  mu_Lock ;;
  act cancelSession ;;
  wg_Wait_mu readEnds ;;
  act release ;;
  mu_Unlock.

(** [Close] takes no lock of its own. *)
Definition Close_mu (readEnds : bool) : L unit :=
  Stop_mu readEnds ;;
  act closeContext.

Section StrconvMu.

Variable FormatFloat : float -> ascii -> Z -> Z -> string.

(** [Start] from the command on. *)
Definition launch (o : Outcome) : M (option error) :=
  path <- gets ffmpegPath ;;
  ap <- field (fun ap => ap) ;;
  cmd <- exec_Command path (ffmpegArgs FormatFloat ap) ;;
  out <- Cmd_StdoutPipe o cmd ;;
  match out with
  | inr err => ret (Some (Errorf "create FFmpeg stdout pipe" err))
  | inl ffmpegOut =>
      '(c, cancel) <- context_WithCancel ;;
      assign (set_cancelPlayback (Some cancel)) ;;
      let reader := NewReader c ffmpegOut in
      serr <- Cmd_Start o cmd ;;
      match serr with
      | Some err => ret (Some (Errorf "start FFmpeg cmd" err))
      | None =>
          oc <- field context ;;
          made <- match oc with
                  | None =>
                      let bufferSizeInBytes := (4 * 1024)%Z in
                      res <- oto_NewContext o 44100 2 2 bufferSizeInBytes ;;
                      match res with
                      | inr err => ret (inr (Errorf "create oto context" err))
                      | inl octx =>
                          assign (set_context (Some octx)) ;;
                          ret (inl octx)
                      end
                  | Some octx => ret (inl octx)
                  end ;;
          match made with
          | inr err => ret (Some err)
          | inl octx =>
              wg_Add 1 ;;
              pl <- Context_NewPlayer octx ;;
              assign (set_player (Some pl)) ;;
              emit (EvGo pl reader) ;;
              assign (set_ffmpegCmd (Some cmd)) ;;
              ret None
          end
      end
  end.

(** [Start] with its lock: [Lock] and the deferred [Unlock] around the
    whole, and around the call of [Close] an [Unlock] before and a [Lock]
    after. *)
Definition Start_mu (o : Outcome) (readEnds : bool) : L (option error) :=
  mu_Lock ;;
  fc <- act (field ffmpegCmd) ;;
  match fc with
  | Some _ =>
      mu_Unlock ;;
      Close_mu readEnds ;;
      mu_Lock
  | None => ret tt
  end ;;
  res <- act (launch o) ;;
  mu_Unlock ;;
  ret res.

End StrconvMu.

(** The goroutine's tail: once [io.Copy] has returned, [ap.wg.Done()],
    then [ap.Stop()] with its lock and its wait. *)
Definition copyReturns_mu (readEnds : bool) : L unit :=
  act wg_Done ;;
  Stop_mu readEnds.

(** A pipe that has nothing more to give, for runs that need a reader on
    a pipe handle. *)
Definition drained : Reader handle :=
  fun h p => mkRead p 0 (Some EOF) h.

(** ** The context-aware reader *)

Lemma ctx_Err_fired (cancelled : list handle) (c : handle) :
  In c cancelled -> ctx_Err cancelled c = Some Canceled.
Proof.
  intros H. unfold ctx_Err.
  replace (existsb (Nat.eqb c) cancelled) with true; [reflexivity|].
  symmetry. apply existsb_exists. exists c. split; [exact H|].
  apply Nat.eqb_refl.
Qed.

Lemma ctx_Err_live (cancelled : list handle) (c : handle) :
  ~ In c cancelled -> ctx_Err cancelled c = None.
Proof.
  intros H. unfold ctx_Err.
  destruct (existsb (Nat.eqb c) cancelled) eqn:E; [|reflexivity].
  apply existsb_exists in E. destruct E as (x & Hx & Heq).
  apply Nat.eqb_eq in Heq. subst x. contradiction.
Qed.

(** C4 (Read of the context-aware reader): if the reader's context has
    been cancelled, Read returns 0 and the context's error, and buffer,
    reader and underlying reader are as they were; if not, count, error
    and buffer are those of the underlying Read, which is where the
    underlying reader moves on. *)
Theorem readerCtx_Read_spec :
  forall (R : Type) (RD : Reader R) (cancelled : list handle)
         (rc : readerCtx R) (p : list Byte.byte),
    (In (ctx rc) cancelled ->
     readerCtx_Read cancelled rc p = mkRead p 0 (Some Canceled) rc) /\
    (~ In (ctx rc) cancelled ->
     readerCtx_Read cancelled rc p =
     mkRead (rd_buf (Read (r rc) p)) (rd_n (Read (r rc) p))
            (rd_err (Read (r rc) p))
            (mkReaderCtx (ctx rc) (rd_next (Read (r rc) p)))).
Proof.
  intros R RD cancelled rc p. unfold readerCtx_Read. split; intros H.
  - rewrite (ctx_Err_fired _ _ H). reflexivity.
  - rewrite (ctx_Err_live _ _ H). reflexivity.
Qed.

(** On a reader that counts the calls of its Read: none is added when
    the context is cancelled, one when it is not. *)
Lemma readerCtx_Read_calls (R : Type) (RD : Reader R)
    (cancelled : list handle) (rc : readerCtx (counting R))
    (p : list Byte.byte) :
  calls (r (rd_next (readerCtx_Read cancelled rc p))) =
  match ctx_Err cancelled (ctx rc) with
  | Some _ => calls (r rc)
  | None => S (calls (r rc))
  end.
Proof.
  unfold readerCtx_Read. destruct (ctx_Err cancelled (ctx rc)); reflexivity.
Qed.

(** ** Basic facts *)

Lemma since_app (w w' : World) (evs : list event) :
  trace w' = trace w ++ evs -> since w w' = evs.
Proof.
  intros E. unfold since. rewrite E. clear E.
  induction (trace w) as [|e tr IH]; [reflexivity | exact IH].
Qed.

Lemma countEv_app (f : event -> bool) (l l' : list event) :
  countEv f (l ++ l') = countEv f l + countEv f l'.
Proof. unfold countEv. rewrite filter_app, length_app. reflexivity. Qed.

Lemma Itoa_Atoi (i : Z) : Atoi (Itoa i) = Some i.
Proof.
  assert (N : forall p, Pos.to_uint p <> Decimal.Nil)
    by apply DecimalPos.Unsigned.to_uint_nonnil.
  unfold Atoi, Itoa. rewrite NilZero.isi.
  - cbn. rewrite DecimalZ.of_to. reflexivity.
  - destruct i as [|p|p]; cbn; try discriminate.
    intros [= E]. exact (N p E).
  - destruct i as [|p|p]; cbn; try discriminate.
    intros [= E]. exact (N p E).
Qed.

Ltac open_world w :=
  let n := fresh "n" in let cp := fresh "cp" in let fc := fresh "fc" in
  let pl := fresh "pl" in let oc := fresh "oc" in let f := fresh "f" in
  let s := fresh "s" in let t := fresh "t" in let path := fresh "path" in
  let nx := fresh "nx" in let tr := fresh "tr" in
  destruct w as [[n cp fc pl oc f s t] path nx tr].

Ltac open_outcome o :=
  let pe := fresh "pe" in let se := fresh "se" in let oe := fresh "oe" in
  destruct o as [[pe|] [se|] [oe|]].

Ltac flat_trace := cbn; rewrite <- ?app_assoc; cbn [app].

Lemma Stop_exec (w : World) :
  exec Stop w =
  mkWorld (stopped (self w)) (ffmpegPath w) (next w)
          (trace w ++ stopEvents (self w)).
Proof.
  open_world w. destruct cp, fc, pl; flat_trace; reflexivity.
Qed.

Lemma Close_exec (w : World) :
  exec Close w =
  mkWorld (set_context None (stopped (self w))) (ffmpegPath w) (next w)
          (trace w ++ closeEvents (self w)).
Proof.
  open_world w. destruct cp, fc, pl, oc; flat_trace; reflexivity.
Qed.

Lemma since_mk (ap ap' : AudioPlayer) (p p' : string) (n n' : handle)
    (tr evs : list event) :
  since (mkWorld ap p n tr) (mkWorld ap' p' n' (tr ++ evs)) = evs.
Proof. apply since_app. reflexivity. Qed.

Lemma since_mk_nil (ap ap' : AudioPlayer) (p p' : string) (n n' : handle)
    (tr : list event) :
  since (mkWorld ap p n tr) (mkWorld ap' p' n' tr) = [].
Proof. apply since_app. cbn. rewrite app_nil_r. reflexivity. Qed.

Ltac split_options :=
  repeat match goal with x : option _ |- _ => destruct x end.

(** Case analysis over the controller's fields and the library's
    answers, for goals about one call. *)
Ltac eval_world :=
  lazy -[since app not In Nat.add Nat.pred Nat.eqb Itoa Atoi Errorf] in *;
  rewrite <- ?app_assoc; cbn [app];
  rewrite ?since_mk, ?since_mk_nil.

Ltac by_cases w o :=
  open_world w; open_outcome o; split_options; eval_world.

Lemma exec_discard {A : Type} (m : M A) (w : World) :
  exec (m ;; ret tt) w = exec m w.
Proof. unfold exec. cbn. destruct (runState m w). reflexivity. Qed.

Lemma Stop_result (w : World) : runState Stop w = (tt, exec Stop w).
Proof. unfold exec. destruct (runState Stop w) as [[] w']. reflexivity. Qed.

Lemma Stop_since (w : World) : since w (exec Stop w) = stopEvents (self w).
Proof. apply since_app. rewrite Stop_exec. reflexivity. Qed.

Lemma Close_since (w : World) : since w (exec Close w) = closeEvents (self w).
Proof. apply since_app. rewrite Close_exec. reflexivity. Qed.

(** [Stop] on a controller without process, player and pending count
    changes no field and ends nothing. *)
Lemma Stop_idle (w : World) :
  ffmpegCmd (self w) = None -> player (self w) = None -> wg (self w) = 0 ->
  self (exec Stop w) = self w /\
  since w (exec Stop w) =
    match cancelPlayback (self w) with Some c => [EvCancel c] | None => [] end
    ++ [EvWgWait 0].
Proof.
  intros Hc Hp Hw. rewrite Stop_since, Stop_exec.
  open_world w. cbn in *. subst. split; reflexivity.
Qed.

Lemma stopEvents_stopped (ap : AudioPlayer) :
  stopEvents (stopped ap) =
  match cancelPlayback ap with Some c => [EvCancel c] | None => [] end
  ++ [EvWgWait 0].
Proof. reflexivity. Qed.

Lemma countEv_cancel_wait (cp : option handle) (f : event -> bool) :
  f EvWgDone = false -> (forall c, f (EvCancel c) = false) ->
  (forall n, f (EvWgWait n) = false) ->
  countEv f (match cp with Some c => [EvCancel c] | None => [] end
             ++ [EvWgWait 0]) = 0.
Proof.
  intros _ Hc Hw. destruct cp as [c|]; unfold countEv; cbn;
    rewrite ?Hc, ?Hw; reflexivity.
Qed.

(** Tactics for the goals left by the case analysis. *)
Ltac tidy :=
  repeat match goal with
         | H : Some _ = None |- _ => discriminate H
         | H : None = Some _ |- _ => discriminate H
         | H : _ /\ _ |- _ => destruct H
         | H : None <> None |- _ => contradict H; reflexivity
         | H : Some _ = Some _ |- _ => injection H as H; try subst
         | H : inl _ = inl _ |- _ => injection H as H; try subst
         end.

Ltac finish :=
  tidy;
  repeat match goal with
         | |- _ /\ _ => split
         | |- forall _, _ => intro; tidy
         | |- exists _, _ => eexists
         | |- ?x = ?x => reflexivity
         | |- _ = _ => reflexivity
         | |- In _ _ => cbn; tauto
         | |- Some _ <> Some _ => let E := fresh in intros [= E]; lia
         | |- None <> Some _ => discriminate
         | |- Some _ <> None => discriminate
         | |- _ <= _ => lia
         | |- _ < _ => lia
         end.

Ltac in_cases H :=
  cbn in H; repeat (destruct H as [H|H]; [try discriminate H|]);
  try contradiction.

Ltac use_wf H :=
  cbn in H;
  try match type of H with
      | ?a = ?a -> _ => specialize (H eq_refl); destruct H; subst
      end.

Ltac eqb_cases :=
  repeat match goal with
         | |- context [Nat.eqb ?a ?b] => destruct (Nat.eqb a b)
         end.

(** Evaluation for goals that compare two worlds through [map]. *)
Ltac eval_respeed :=
  lazy -[app map not In Nat.add Nat.pred Nat.eqb Itoa Atoi Errorf];
  rewrite ?map_app; cbn [map]; rewrite <- ?app_assoc; reflexivity.

Section Properties.

Variable FormatFloat : float -> ascii -> Z -> Z -> string.

#[local] Abbreviation Start := (Start FormatFloat).
#[local] Abbreviation step := (step FormatFloat).
#[local] Abbreviation run := (run FormatFloat).
#[local] Abbreviation reachable := (reachable FormatFloat).
#[local] Abbreviation startsOk := (startsOk FormatFloat).
#[local] Abbreviation respeed := (respeed FormatFloat).

Lemma wf_boot (file : string) (sp : float) (t : Z) :
  wf (boot (NewAudioPlayer file sp t)).
Proof. split; cbn; [auto | discriminate]. Qed.

Lemma wf_step (c : call) (w : World) : wf w -> wf (exec (step c) w).
Proof.
  intros [H1 H2]. open_world w. cbn in H1, H2.
  destruct c as [o| | |newPath|];
    [ open_outcome o; destruct cp, fc, pl, oc
    | destruct cp, fc, pl
    | destruct cp, fc, pl, oc
    |
    | destruct n as [|n], cp, fc, pl ];
    (split; cbn;
     [ first [ discriminate
             | intros _; split; reflexivity
             | exact H1 ]
     | let q := fresh "q" in let E := fresh "E" in
       intros q E;
       first [ discriminate E
             | injection E as <-; lia
             | apply H2 in E; lia ] ]).
Qed.

Lemma wf_run (cs : list call) (w : World) : wf w -> wf (run cs w).
Proof.
  revert w. induction cs as [|c cs IH]; intros w H; [exact H|].
  cbn. apply IH, wf_step, H.
Qed.

Lemma reachable_wf (w : World) : reachable w -> wf w.
Proof.
  intros (file & sp & t & cs & ->). apply wf_run, wf_boot.
Qed.

Lemma run_app (cs cs' : list call) (w : World) :
  run (cs ++ cs') w = run cs' (run cs w).
Proof.
  revert w. induction cs as [|c cs IH]; intros w; [reflexivity|].
  cbn. apply IH.
Qed.

Lemma reachable_run (cs : list call) (w : World) :
  reachable w -> reachable (run cs w).
Proof.
  intros (file & sp & t & cs0 & ->).
  exists file, sp, t, (cs0 ++ cs). symmetry. apply run_app.
Qed.

Lemma Start_extends (o : Outcome) (w : World) :
  exists evs, trace (exec (Start o) w) = trace w ++ evs.
Proof. by_cases w o; eexists; reflexivity. Qed.

(** No call clears the cancel function, and only [Start] replaces it. *)
Lemma cancelPlayback_step (c : call) (w : World) :
  (cancelPlayback (self w) <> None ->
   cancelPlayback (self (exec (step c) w)) <> None) /\
  (isStart c = false ->
   cancelPlayback (self (exec (step c) w)) = cancelPlayback (self w)).
Proof.
  open_world w.
  destruct c as [o| | |newPath|];
    [ open_outcome o; destruct cp, fc, pl, oc
    | destruct cp, fc, pl
    | destruct cp, fc, pl, oc
    |
    | destruct n as [|n], cp, fc, pl ];
    cbn; split; intros H; try reflexivity; try discriminate; exact H.
Qed.

Lemma cancelPlayback_kept (cs : list call) (w : World) :
  cancelPlayback (self w) <> None ->
  cancelPlayback (self (run cs w)) <> None.
Proof.
  revert w. induction cs as [|c cs IH]; intros w H; [exact H|].
  cbn. apply IH, cancelPlayback_step, H.
Qed.

Lemma cancelPlayback_frame (cs : list call) (w : World) :
  Forall (fun c => isStart c = false) cs ->
  cancelPlayback (self (run cs w)) = cancelPlayback (self w).
Proof.
  intros F. revert w.
  induction F as [|c cs Hc _ IH]; intros w; [reflexivity|].
  cbn. rewrite IH. apply cancelPlayback_step, Hc.
Qed.

(** What a later [Stop] or [Close] calls first. *)
Lemma stopEvents_head (ap : AudioPlayer) (c : handle) :
  cancelPlayback ap = Some c ->
  exists rest, stopEvents ap = EvCancel c :: EvWgWait (wg ap) :: rest /\
               closeEvents ap =
               EvCancel c :: EvWgWait (wg ap) :: rest ++
               match context ap with
               | Some oc => [EvContextClose oc]
               | None => []
               end.
Proof.
  intros E. unfold closeEvents, stopEvents. rewrite E. cbn.
  eexists. split; reflexivity.
Qed.

(** C8 (Stop on an idle controller): on a controller that holds no
    decoder process, Stop changes no field of the controller nor the
    package variable, hands out nothing and ends nothing: all it calls is
    the cancel function, if one is held, and the wait on a zero counter.
    And Stop after Stop leaves the controller as one Stop does, for every
    world. *)
Theorem Stop_idle_noop :
  (forall w : World,
      reachable w -> ffmpegCmd (self w) = None ->
      self (exec Stop w) = self w /\
      ffmpegPath (exec Stop w) = ffmpegPath w /\
      next (exec Stop w) = next w /\
      since w (exec Stop w) =
        match cancelPlayback (self w) with
        | Some c => [EvCancel c]
        | None => []
        end ++ [EvWgWait 0] /\
      countEv isTeardown (since w (exec Stop w)) = 0) /\
  (forall w : World,
      self (exec Stop (exec Stop w)) = self (exec Stop w) /\
      ffmpegPath (exec Stop (exec Stop w)) = ffmpegPath (exec Stop w) /\
      next (exec Stop (exec Stop w)) = next (exec Stop w) /\
      countEv isTeardown (since (exec Stop w) (exec Stop (exec Stop w))) = 0).
Proof.
  split.
  - intros w R Hc.
    destruct (reachable_wf w R) as [H1 _]. destruct (H1 Hc) as [Hp Hw].
    destruct (Stop_idle w Hc Hp Hw) as [Es Et].
    rewrite Et. repeat split; try assumption.
    + rewrite Stop_exec. reflexivity.
    + rewrite Stop_exec. reflexivity.
    + apply countEv_cancel_wait; reflexivity.
  - intros w. rewrite Stop_since. rewrite !Stop_exec. cbn [self ffmpegPath next].
    repeat split. rewrite stopEvents_stopped.
    apply countEv_cancel_wait; reflexivity.
Qed.

(** C10 (what Stop clears): after Stop the process handle and the player
    are nil; the cancel function, the output context, the configuration
    and the package variable are as before.  No call ever clears a cancel
    function that is held; through any later calls other than Start the
    controller keeps the same one, and a Stop or Close made then begins by
    calling it and then waits. *)
Theorem Stop_clears_only_process_and_player :
  forall w : World,
    let w' := exec Stop w in
    ffmpegCmd (self w') = None /\
    player (self w') = None /\
    cancelPlayback (self w') = cancelPlayback (self w) /\
    context (self w') = context (self w) /\
    audioFile (self w') = audioFile (self w) /\
    speed (self w') = speed (self w) /\
    startTime (self w') = startTime (self w) /\
    ffmpegPath w' = ffmpegPath w /\
    (forall cs : list call,
        cancelPlayback (self w) <> None ->
        cancelPlayback (self (run cs w')) <> None) /\
    (forall (c : handle) (cs : list call),
        cancelPlayback (self w) = Some c ->
        Forall (fun k => isStart k = false) cs ->
        let w'' := run cs w' in
        cancelPlayback (self w'') = Some c /\
        (exists rest,
            since w'' (exec Stop w'') =
            EvCancel c :: EvWgWait (wg (self w'')) :: rest) /\
        (exists rest,
            since w'' (exec Close w'') =
            EvCancel c :: EvWgWait (wg (self w'')) :: rest)).
Proof.
  intros w w'. subst w'. rewrite Stop_exec. cbn [self ffmpegPath].
  repeat split; try reflexivity.
  - intros cs H. apply cancelPlayback_kept. exact H.
  - rewrite cancelPlayback_frame by assumption. assumption.
  - rewrite Stop_since.
    match goal with |- context [stopEvents ?a] =>
      destruct (stopEvents_head a c) as (rest & E & _) end.
    + rewrite cancelPlayback_frame by assumption. assumption.
    + exists rest. exact E.
  - rewrite Close_since.
    match goal with |- context [closeEvents ?a] =>
      destruct (stopEvents_head a c) as (rest & _ & E) end.
    + rewrite cancelPlayback_frame by assumption. assumption.
    + eexists. exact E.
Qed.

(** *** The decoder invocation *)

(** C5 (decoder invocation): whatever the state and the library's
    answers, Start builds one command: the executable named by the
    package variable with the arguments -ss and the offset in decimal,
    -i and the source path, -filter:a and atempo= followed by the speed
    formatted with format f, precision -1 (the fewest digits that give
    the value back) and bit size 64, -f s16le, -ar 44100, -ac 2, pipe:1.
    It is the only command built and the only one started.  Start asks
    for its stdout pipe and, unless that fails, starts it: the process
    start of this very command follows, whatever it answers; when the
    pipe fails nothing more is done.  When pipe, process start and
    context creation succeed, Start returns nil and the controller holds
    this command. *)
Theorem Start_decoder_invocation :
  forall (o : Outcome) (w : World),
    let ap := self w in
    exists post : list event,
      since w (exec (Start o) w) =
        match ffmpegCmd ap with Some _ => closeEvents ap | None => [] end ++
        EvCommand
          (mkCmd (next w) (ffmpegPath w)
             [ "-ss"; Itoa (startTime ap);
               "-i"; audioFile ap;
               "-filter:a";
               ("atempo=" ++ FormatFloat (speed ap) "f"%char (-1) 64)%string;
               "-f"; "s16le"; "-ar"; "44100"; "-ac"; "2"; "pipe:1" ])
        :: post /\
      Atoi (Itoa (startTime ap)) = Some (startTime ap) /\
      countEv isCommand
        (match ffmpegCmd ap with Some _ => closeEvents ap | None => [] end) = 0 /\
      countEv isCommand post = 0 /\
      (forall q res, In (EvCmdStart q res) post -> q = next w) /\
      (result (Start o) w = None -> In (EvCmdStart (next w) None) post) /\
      (pipeErr o = None ->
       exists rest : list event,
         post = EvStdoutPipe (next w) None :: EvWithCancel (S (next w))
                :: EvCmdStart (next w) (startErr o) :: rest) /\
      (pipeErr o <> None -> post = [EvStdoutPipe (next w) (pipeErr o)]) /\
      (pipeErr o = None -> startErr o = None -> otoErr o = None ->
       result (Start o) w = None /\
       ffmpegCmd (self (exec (Start o) w)) =
         Some (mkCmd (next w) (ffmpegPath w)
                 [ "-ss"; Itoa (startTime ap);
                   "-i"; audioFile ap;
                   "-filter:a";
                   ("atempo=" ++ FormatFloat (speed ap) "f"%char (-1) 64)%string;
                   "-f"; "s16le"; "-ar"; "44100"; "-ac"; "2"; "pipe:1" ])).
Proof.
  intros o w ap. subst ap.
  by_cases w o; eexists;
    (split; [reflexivity|]); (split; [apply Itoa_Atoi|]);
    (split; [reflexivity|]); (split; [reflexivity|]);
    (split; [ intros q res H; cbn in H;
              repeat (destruct H as [H|H]; [try discriminate H|]);
              try contradiction; injection H as <- _; reflexivity |]);
    (split; [ intros H; try discriminate H; cbn; tauto |]);
    (split; [ intros H; try discriminate H; eexists; reflexivity |]);
    (split; [ intros H; first [reflexivity | contradict H; reflexivity] |]);
    intros A B C; try discriminate; split; reflexivity.
Qed.

(** The configuration is never assigned after construction. *)
Lemma config_step (c : call) (w : World) :
  audioFile (self (exec (step c) w)) = audioFile (self w) /\
  speed (self (exec (step c) w)) = speed (self w) /\
  startTime (self (exec (step c) w)) = startTime (self w).
Proof.
  open_world w.
  destruct c as [o| | |newPath|];
    [ open_outcome o; destruct cp, fc, pl, oc
    | destruct cp, fc, pl
    | destruct cp, fc, pl, oc
    |
    | destruct n as [|n], cp, fc, pl ];
    cbn; repeat split.
Qed.

Lemma config_run (cs : list call) (w : World) :
  audioFile (self (run cs w)) = audioFile (self w) /\
  speed (self (run cs w)) = speed (self w) /\
  startTime (self (run cs w)) = startTime (self w).
Proof.
  revert w. induction cs as [|c cs IH]; intros w; [repeat split|].
  cbn. destruct (IH (exec (step c) w)) as (A & B & C).
  destruct (config_step c w) as (A' & B' & C').
  rewrite A, B, C. auto.
Qed.

(** The one command of a [Start]. *)
Lemma Start_builds (o : Outcome) (w : World) :
  In (EvCommand (mkCmd (next w) (ffmpegPath w) (ffmpegArgs FormatFloat (self w))))
     (since w (exec (Start o) w)) /\
  (forall cmd, In (EvCommand cmd) (since w (exec (Start o) w)) ->
               cmd = mkCmd (next w) (ffmpegPath w)
                           (ffmpegArgs FormatFloat (self w))).
Proof.
  by_cases w o;
    (split; [ cbn; tauto
            | intros cmd H; in_cases H; injection H as <-; reflexivity ]).
Qed.

(** The speed decides nothing but the arguments: a call on the world
    with another speed does the same and returns the same. *)
Lemma Start_respeed (sp : float) (o : Outcome) (w : World) :
  runState (Start o) (respeed sp w) =
  (result (Start o) w, respeed sp (exec (Start o) w)).
Proof.
  open_world w. open_outcome o; split_options; eval_respeed.
Qed.

Lemma step_respeed (sp : float) (c : call) (w : World) :
  exec (step c) (respeed sp w) = respeed sp (exec (step c) w).
Proof.
  destruct c as [o| | |newPath|].
  - assert (E : forall w', exec (step (CallStart o)) w' = exec (Start o) w')
      by (intros w'; apply exec_discard).
    rewrite !E. unfold exec at 1. rewrite Start_respeed. reflexivity.
  - open_world w. split_options; eval_respeed.
  - open_world w. split_options; eval_respeed.
  - open_world w. split_options; eval_respeed.
  - open_world w. destruct n; split_options; eval_respeed.
Qed.

Lemma run_respeed (sp : float) (cs : list call) (w : World) :
  run cs (respeed sp w) = respeed sp (run cs w).
Proof.
  revert w. induction cs as [|c cs IH]; intros w; [reflexivity|].
  cbn. rewrite step_respeed. apply IH.
Qed.

Lemma Start_result_any_speed (file : string) (sp sp' : float) (t : Z)
    (cs : list call) (o : Outcome) :
  result (Start o) (run cs (boot (NewAudioPlayer file sp' t))) =
  result (Start o) (run cs (boot (NewAudioPlayer file sp t))).
Proof.
  change (boot (NewAudioPlayer file sp' t))
    with (respeed sp' (boot (NewAudioPlayer file sp t))).
  rewrite run_respeed. unfold result at 1. rewrite Start_respeed. reflexivity.
Qed.

(** Unless the pipe fails, Start starts the command it built; with all
    three library calls succeeding it returns nil and holds it. *)
Lemma Start_runs_command (o : Outcome) (w : World) :
  (pipeErr o = None ->
   In (EvCmdStart (next w) (startErr o)) (since w (exec (Start o) w))) /\
  (pipeErr o = None -> startErr o = None -> otoErr o = None ->
   result (Start o) w = None /\
   ffmpegCmd (self (exec (Start o) w)) =
     Some (mkCmd (next w) (ffmpegPath w) (ffmpegArgs FormatFloat (self w)))).
Proof.
  by_cases w o;
    (split; [ intros H; try discriminate H; cbn; tauto
            | intros A B C; try discriminate; split; reflexivity ]).
Qed.

(** C7 (speed outside the documented range): the constructor has no
    failure result and stores the speed it is given; no call changes it;
    and the one command every later Start builds carries, as its tempo
    filter, atempo= followed by exactly that speed, formatted.  Start
    does not reject it either: unless the pipe fails it starts that
    command, with the three library calls succeeding it returns nil and
    holds it, and what it returns is what it returns for any other
    speed. *)
Theorem speed_out_of_range_passed_through :
  forall (file : string) (sp : float) (t : Z),
    outsideRange sp = true ->
    speed (NewAudioPlayer file sp t) = sp /\
    forall (cs : list call) (o : Outcome),
      let w := run cs (boot (NewAudioPlayer file sp t)) in
      speed (self w) = sp /\
      (exists cmd : Cmd,
        In (EvCommand cmd) (since w (exec (Start o) w)) /\
        (forall cmd', In (EvCommand cmd') (since w (exec (Start o) w)) ->
                      cmd' = cmd) /\
        nth_error (Args cmd) 4 = Some "-filter:a" /\
        nth_error (Args cmd) 5 =
          Some ("atempo=" ++ FormatFloat sp "f"%char (-1) 64)%string /\
        (pipeErr o = None ->
         In (EvCmdStart (Process cmd) (startErr o))
            (since w (exec (Start o) w))) /\
        (pipeErr o = None -> startErr o = None -> otoErr o = None ->
         result (Start o) w = None /\
         ffmpegCmd (self (exec (Start o) w)) = Some cmd)) /\
      (forall sp' : float,
          result (Start o) (run cs (boot (NewAudioPlayer file sp' t))) =
          result (Start o) w).
Proof.
  intros file sp t _. split; [reflexivity|].
  intros cs o w.
  destruct (config_run cs (boot (NewAudioPlayer file sp t))) as (_ & Hs & _).
  fold w in Hs. cbn in Hs. split; [exact Hs|].
  destruct (Start_builds o w) as [Hin Huniq].
  destruct (Start_runs_command o w) as [Hstart Hok].
  split.
  - eexists. split; [exact Hin|]. split; [exact Huniq|].
    cbn. rewrite Hs.
    split; [reflexivity|]. split; [reflexivity|].
    split; [exact Hstart | exact Hok].
  - intros sp'. apply Start_result_any_speed.
Qed.

(** *** The output context *)

(** The amended C1 (life of the output context): an output context the
    controller holds is kept by Stop, which closes no context; it is kept
    by a Start made while no process handle is held, which neither closes
    nor creates a context; Close closes exactly it and leaves none; a
    Start made while a process handle is held begins with all of Close,
    so it closes the context, and the session it then starts gets a
    context created anew. *)
Theorem context_lifetime :
  forall (w : World) (c : handle),
    reachable w -> context (self w) = Some c ->
    (context (self (exec Stop w)) = Some c /\
     countEv isContextClose (since w (exec Stop w)) = 0) /\
    (forall o : Outcome,
        ffmpegCmd (self w) = None ->
        context (self (exec (Start o) w)) = Some c /\
        countEv isContextClose (since w (exec (Start o) w)) = 0 /\
        countEv isNewContext (since w (exec (Start o) w)) = 0) /\
    (context (self (exec Close w)) = None /\
     filter isContextClose (since w (exec Close w)) = [EvContextClose c]) /\
    (forall o : Outcome,
        ffmpegCmd (self w) <> None ->
        context (self (exec (Start o) w)) <> Some c /\
        exists rest : list event,
          since w (exec (Start o) w) = closeEvents (self w) ++ rest /\
          filter isContextClose (closeEvents (self w)) = [EvContextClose c] /\
          countEv isContextClose rest = 0 /\
          (result (Start o) w = None ->
           exists c' : handle,
             context (self (exec (Start o) w)) = Some c' /\
             next w <= c' /\
             In (EvNewContext 44100 2 2 4096 (inl c')) rest)).
Proof.
  intros w c R Hc. destruct (reachable_wf w R) as [_ H2].
  specialize (H2 c Hc). clear R. repeat split.
  - rewrite Stop_exec. exact Hc.
  - rewrite Stop_since. open_world w. destruct cp, fc, pl; reflexivity.
  - revert H. by_cases w o; finish.
  - revert H. by_cases w o; finish.
  - revert H. by_cases w o; finish.
  - rewrite Close_exec. reflexivity.
  - rewrite Close_since. open_world w. cbn in Hc. subst oc.
    destruct cp, fc, pl; reflexivity.
  - revert H. by_cases w o; finish.
  - revert H. by_cases w o; finish.
Qed.

(** *** Start that fails, Start after Close *)

(** The amended C2 (Start that returns an error): the error is the
    wrapped answer of the pipe, of the process start or of the context
    creation; the controller then holds no process handle and no player
    and has no pending count, and a Stop changes no field and ends
    nothing.  The cancel function is not cleared: after a pipe failure it
    is the one held before, after the two later failures it is the one
    this Start made, and that Stop calls it. *)
Theorem Start_error_state :
  forall (w : World) (o : Outcome) (err : error),
    reachable w -> result (Start o) w = Some err ->
    let w' := exec (Start o) w in
    (exists cause : error,
        (pipeErr o = Some cause /\
         err = Errorf "create FFmpeg stdout pipe" cause) \/
        (pipeErr o = None /\ startErr o = Some cause /\
         err = Errorf "start FFmpeg cmd" cause) \/
        (pipeErr o = None /\ startErr o = None /\ otoErr o = Some cause /\
         err = Errorf "create oto context" cause)) /\
    ffmpegCmd (self w') = None /\
    player (self w') = None /\
    wg (self w') = 0 /\
    self (exec Stop w') = self w' /\
    countEv isTeardown (since w' (exec Stop w')) = 0 /\
    (pipeErr o <> None ->
     cancelPlayback (self w') = cancelPlayback (self w)) /\
    (pipeErr o = None ->
     exists c : handle,
       cancelPlayback (self w') = Some c /\
       next w < c /\
       In (EvWithCancel c) (since w w') /\
       since w' (exec Stop w') = [EvCancel c; EvWgWait 0]).
Proof.
  intros w o err R E w'. subst w'.
  destruct (reachable_wf w R) as [H1 _]. clear R.
  rewrite !Stop_since, Stop_exec. revert H1 E.
  by_cases w o; intros H1 E; use_wf H1; tidy;
    (split; [ eexists; first [ left; repeat split; reflexivity
                             | right; left; repeat split; reflexivity
                             | right; right; repeat split; reflexivity ] |]);
    finish.
Qed.

(** The amended C9 (Start after Close): Close leaves the controller
    without process handle, player, pending count and output context,
    and in no other state than that; a Start made then fails exactly
    when the pipe, the process start or the context creation fails, and
    otherwise starts the decoder, creates an output context and a player,
    spawns the copy and holds the new session. *)
Theorem Start_after_Close :
  forall (w : World) (o : Outcome),
    let wc := exec Close w in
    let w1 := exec (Start o) wc in
    ffmpegCmd (self wc) = None /\
    player (self wc) = None /\
    context (self wc) = None /\
    wg (self wc) = 0 /\
    (result (Start o) wc = None <->
     pipeErr o = None /\ startErr o = None /\ otoErr o = None) /\
    (result (Start o) wc = None ->
     exists (c octx pl : handle),
       ffmpegCmd (self w1) =
         Some (mkCmd (next w) (ffmpegPath w) (ffmpegArgs FormatFloat (self w))) /\
       cancelPlayback (self w1) = Some c /\
       context (self w1) = Some octx /\
       player (self w1) = Some pl /\
       wg (self w1) = 1 /\
       In (EvCmdStart (next w) None) (since wc w1) /\
       In (EvNewContext 44100 2 2 4096 (inl octx)) (since wc w1) /\
       In (EvNewPlayer octx pl) (since wc w1) /\
       In (EvGo pl (NewReader c (next w))) (since wc w1)).
Proof.
  intros w o wc w1. subst wc w1. rewrite Close_exec.
  generalize (trace w ++ closeEvents (self w)). intros tr0.
  open_world w. open_outcome o; eval_world; finish.
Qed.

(** *** Start/Stop cycles *)

Lemma exec_CallStart (o : Outcome) (w : World) :
  exec (step (CallStart o)) w = exec (Start o) w.
Proof. apply exec_discard. Qed.

Lemma step_extends (c : call) (w : World) :
  exists evs, trace (exec (step c) w) = trace w ++ evs.
Proof.
  destruct c as [o| | |newPath|].
  - rewrite exec_CallStart. apply Start_extends.
  - rewrite Stop_exec. eexists. reflexivity.
  - rewrite Close_exec. eexists. reflexivity.
  - exists []. cbn. rewrite app_nil_r. reflexivity.
  - open_world w. destruct n, cp, fc, pl; flat_trace; eexists; reflexivity.
Qed.

Lemma run_extends (cs : list call) (w : World) :
  exists evs, trace (run cs w) = trace w ++ evs.
Proof.
  revert w. induction cs as [|c cs IH]; intros w.
  - exists []. cbn. rewrite app_nil_r. reflexivity.
  - cbn. destruct (IH (exec (step c) w)) as [e2 E2].
    destruct (step_extends c w) as [e1 E1].
    exists (e1 ++ e2). rewrite E2, E1, app_assoc. reflexivity.
Qed.

Lemma since_trans (w w' w'' : World) :
  (exists e1, trace w' = trace w ++ e1) ->
  (exists e2, trace w'' = trace w' ++ e2) ->
  since w w'' = since w w' ++ since w' w''.
Proof.
  intros [e1 E1] [e2 E2].
  rewrite (since_app w w' e1 E1), (since_app w' w'' e2 E2).
  apply since_app. rewrite E2, E1, app_assoc. reflexivity.
Qed.

(** One round on a controller without process handle, its Start
    returning [nil]. *)
Lemma round (o : Outcome) (w : World) :
  ffmpegCmd (self w) = None -> result (Start o) w = None ->
  let w1 := exec (Start o) w in
  let w2 := exec Stop w1 in
  ffmpegCmd (self w2) = None /\
  countEv isContextClose (since w w2) = 0 /\
  exists octx : handle,
    context (self w1) = Some octx /\
    context (self w2) = Some octx /\
    (forall x pl, In (EvNewPlayer x pl) (since w w2) -> x = octx) /\
    match context (self w) with
    | Some c => octx = c /\ countEv isNewContext (since w w2) = 0
    | None => countEv isNewContext (since w w1) = 1 /\
              countEv isNewContext (since w w2) = 1
    end.
Proof.
  intros Hc Hr w1 w2. subst w1 w2. revert Hc Hr.
  by_cases w o; intros Hc Hr; tidy;
    (split; [reflexivity|]); (split; [reflexivity|]);
    eexists; (split; [reflexivity|]); (split; [reflexivity|]);
    (split; [ intros x pl' H; in_cases H; injection H as <- _; reflexivity
            | repeat split ]).
Qed.

Lemma rounds_reuse (os : list Outcome) :
  forall (w : World) (c : handle),
    ffmpegCmd (self w) = None -> context (self w) = Some c ->
    startsOk os w ->
    ffmpegCmd (self (run (cycles os) w)) = None /\
    context (self (run (cycles os) w)) = Some c /\
    countEv isNewContext (since w (run (cycles os) w)) = 0 /\
    countEv isContextClose (since w (run (cycles os) w)) = 0 /\
    (forall x pl, In (EvNewPlayer x pl) (since w (run (cycles os) w)) -> x = c).
Proof.
  induction os as [|o os IH]; intros w c Hf Hc Hok.
  - cbn. rewrite (since_app w w []) by (rewrite app_nil_r; reflexivity).
    repeat split; auto. intros x pl [].
  - destruct Hok as [Hr Hok].
    destruct (round o w Hf Hr) as (Hf2 & Hcl & octx & _ & Hc2 & Hpl & Hnew).
    rewrite Hc in Hnew. destruct Hnew as [-> Hnew].
    change (run (cycles (o :: os)) w)
      with (run (cycles os) (exec Stop (exec (step (CallStart o)) w))).
    rewrite exec_CallStart.
    set (w2 := exec Stop (exec (Start o) w)) in *.
    destruct (IH w2 c Hf2 Hc2 Hok) as (A & B & C & D & E).
    assert (T : since w (run (cycles os) w2) =
                since w w2 ++ since w2 (run (cycles os) w2)).
    { apply since_trans; [|apply run_extends].
      destruct (Start_extends o w) as [e1 E1]. subst w2.
      rewrite Stop_exec. cbn [trace]. rewrite E1.
      eexists. rewrite <- app_assoc. reflexivity. }
    rewrite T, !countEv_app, Hnew, Hcl, C, D.
    repeat split; auto.
    intros x pl H. apply in_app_or in H. destruct H as [H|H]; eauto.
Qed.


(** *** Killing and reaping the decoder *)

Lemma countEv_none (f : event -> bool) (evs : list event) :
  (forall e, In e evs -> f e = false) -> countEv f evs = 0.
Proof.
  unfold countEv. induction evs as [|e evs IH]; intros H; [reflexivity|].
  cbn. rewrite (H e (or_introl eq_refl)). apply IH.
  intros e' He'. apply H. right. exact He'.
Qed.

(** A call kills and waits for no process but the one the controller
    holds; the process handle it holds afterwards is the one it held or
    one just made. *)
Lemma step_reaps (c : call) (w : World) :
  next w <= next (exec (step c) w) /\
  (forall cmd, ffmpegCmd (self (exec (step c) w)) = Some cmd ->
               ffmpegCmd (self w) = Some cmd \/ next w <= Process cmd) /\
  (forall q, In (EvKill q) (since w (exec (step c) w)) \/
             In (EvWait q) (since w (exec (step c) w)) ->
             exists cmd, ffmpegCmd (self w) = Some cmd /\ Process cmd = q).
Proof.
  destruct c as [o| | |newPath|].
  - rewrite exec_CallStart.
    by_cases w o;
      (split; [lia|]);
      (split; [ intros cmd E; tidy; first [left; reflexivity | right; cbn; lia]
              | intros q [H|H]; in_cases H; injection H as <-;
                eexists; split; reflexivity ]).
  - rewrite Stop_since, Stop_exec. open_world w. split_options;
      (split; [cbn; lia|]);
      (split; [ intros cmd E; discriminate E
              | intros q [H|H]; in_cases H; injection H as <-;
                eexists; split; reflexivity ]).
  - rewrite Close_since, Close_exec. open_world w. split_options;
      (split; [cbn; lia|]);
      (split; [ intros cmd E; discriminate E
              | intros q [H|H]; in_cases H; injection H as <-;
                eexists; split; reflexivity ]).
  - open_world w. eval_world. split; [lia|].
    split; [intros cmd E; left; exact E | intros q [[]|[]]].
  - open_world w. destruct n; split_options; eval_world;
      (split; [lia|]);
      (split; [ intros cmd E; discriminate E
              | intros q [H|H]; in_cases H; injection H as <-;
                eexists; split; reflexivity ]).
Qed.

Lemma orphan_step (p : handle) (c : call) (w : World) :
  orphan p w -> orphan p (exec (step c) w).
Proof.
  intros (Hp & Hh & Hk & Hw).
  destruct (step_reaps c w) as (Hn & Hh' & Hr).
  destruct (step_extends c w) as [evs E].
  rewrite (since_app _ _ _ E) in Hr.
  assert (No : forall q, In (EvKill q) evs \/ In (EvWait q) evs -> q <> p).
  { intros q Hq. destruct (Hr q Hq) as (cmd & Hc & <-). apply Hh, Hc. }
  unfold orphan. rewrite E, !countEv_app, Hk, Hw. repeat split.
  - lia.
  - intros cmd Hc. destruct (Hh' cmd Hc) as [H|H]; [apply Hh, H | lia].
  - apply countEv_none. intros e He. destruct e; try reflexivity.
    cbn. apply Nat.eqb_neq. intros ->. apply (No p0); auto.
  - apply countEv_none. intros e He. destruct e; try reflexivity.
    cbn. apply Nat.eqb_neq. intros ->. apply (No p0); auto.
Qed.

Lemma orphan_run (p : handle) (cs : list call) (w : World) :
  orphan p w -> orphan p (run cs w).
Proof.
  revert w. induction cs as [|c cs IH]; intros w H; [exact H|].
  cbn. apply IH, orphan_step, H.
Qed.

(** In the events of one call a process is waited for as often as it is
    killed, and at most once. *)
Lemma step_reap_counts (c : call) (w : World) (q : handle) :
  countEv (isWait q) (since w (exec (step c) w)) =
  countEv (isKill q) (since w (exec (step c) w)) /\
  countEv (isKill q) (since w (exec (step c) w)) <= 1.
Proof.
  destruct c as [o| | |newPath|].
  - rewrite exec_CallStart.
    by_cases w o; eqb_cases; split; try reflexivity; repeat constructor.
  - rewrite Stop_since. open_world w. split_options; eval_world;
      eqb_cases; split; try reflexivity; repeat constructor.
  - rewrite Close_since. open_world w. split_options; eval_world;
      eqb_cases; split; try reflexivity; repeat constructor.
  - open_world w. eval_world. split; [reflexivity | repeat constructor].
  - open_world w. destruct n; split_options; eval_world;
      eqb_cases; split; try reflexivity; repeat constructor.
Qed.

(** A process handle still held after a call is either the one held
    before, with nothing killed meanwhile, or a new one. *)
Lemma step_holds (c : call) (w : World) (cmd : Cmd) :
  ffmpegCmd (self (exec (step c) w)) = Some cmd ->
  (ffmpegCmd (self w) = Some cmd /\
   forall q, ~ In (EvKill q) (since w (exec (step c) w)) /\
             ~ In (EvWait q) (since w (exec (step c) w))) \/
  next w <= Process cmd < next (exec (step c) w).
Proof.
  destruct c as [o| | |newPath|].
  - rewrite exec_CallStart. revert cmd.
    by_cases w o; intros cmd E; tidy; right; cbn; lia.
  - rewrite Stop_exec. intros E. discriminate E.
  - rewrite Close_exec. intros E. discriminate E.
  - open_world w. eval_world. intros E. left. split; [exact E|].
    intros q. split; intros [].
  - revert cmd. open_world w. destruct n; split_options; eval_world;
      intros cmd E; discriminate E.
Qed.

Lemma countEv_In (f : event -> bool) (evs : list event) :
  countEv f evs <> 0 -> exists e, In e evs /\ f e = true.
Proof.
  unfold countEv. induction evs as [|e evs IH]; cbn; [congruence|].
  destruct (f e) eqn:E.
  - intros _. exists e. auto.
  - intros H. destruct (IH H) as (e' & He' & Hf). exists e'. auto.
Qed.

Lemma isKill_In (q : handle) (evs : list event) :
  countEv (isKill q) evs <> 0 -> In (EvKill q) evs.
Proof.
  intros H. destruct (countEv_In _ _ H) as (e & He & Hf).
  destruct e; try discriminate Hf. cbn in Hf.
  apply Nat.eqb_eq in Hf. subst. exact He.
Qed.

Lemma reaping_boot (ap : AudioPlayer) :
  ffmpegCmd ap = None -> reaping (boot ap).
Proof.
  intros H. split; [|split].
  - intros cmd E. cbn in E. rewrite H in E. discriminate E.
  - intros p _. reflexivity.
  - intros p. split; [reflexivity | repeat constructor].
Qed.

Lemma reaping_step (c : call) (w : World) :
  reaping w -> reaping (exec (step c) w).
Proof.
  intros (Hheld & Hfresh & Hcount).
  destruct (step_reaps c w) as (Hn & _ & Hr).
  destruct (step_extends c w) as [evs E].
  pose proof (step_reap_counts c w) as Hc.
  pose proof (step_holds c w) as Hh.
  rewrite (since_app _ _ _ E) in Hr, Hc, Hh.
  assert (Old : forall q, countEv (isKill q) evs <> 0 ->
                          q < next w /\ countEv (isKill q) (trace w) = 0).
  { intros q Hq. apply isKill_In in Hq.
    destruct (Hr q (or_introl Hq)) as (cmd & Hcmd & <-). apply Hheld, Hcmd. }
  unfold reaping. rewrite E. repeat split.
  - destruct (Hh cmd H) as [[Hsame _]|Hnew]; [|lia].
    destruct (Hheld cmd Hsame). lia.
  - rewrite countEv_app.
    destruct (Hh cmd H) as [[Hsame Hno]|Hnew].
    + destruct (Hheld cmd Hsame) as [_ ->].
      destruct (Nat.eq_dec (countEv (isKill (Process cmd)) evs) 0) as [Z|NZ];
        [exact Z|].
      apply isKill_In in NZ. destruct (Hno (Process cmd)) as [K _].
      contradiction.
    + rewrite (Hfresh _ (proj1 Hnew)).
      destruct (Nat.eq_dec (countEv (isKill (Process cmd)) evs) 0) as [Z|NZ];
        [exact Z|].
      destruct (Old _ NZ). lia.
  - intros p Hp. rewrite countEv_app.
    rewrite (Hfresh p) by lia.
    destruct (Nat.eq_dec (countEv (isKill p) evs) 0) as [Z|NZ]; [exact Z|].
    destruct (Old _ NZ). lia.
  - rewrite !countEv_app. destruct (Hcount p) as [-> _].
    destruct (Hc p) as [-> _]. reflexivity.
  - rewrite countEv_app. destruct (Hcount p) as [_ H1], (Hc p) as [_ H2].
    destruct (Nat.eq_dec (countEv (isKill p) evs) 0) as [Z|NZ]; [lia|].
    destruct (Old _ NZ) as [_ ->]. exact H2.
Qed.

Lemma reaping_run (cs : list call) (w : World) :
  reaping w -> reaping (run cs w).
Proof.
  revert w. induction cs as [|c cs IH]; intros w H; [exact H|].
  cbn. apply IH, reaping_step, H.
Qed.

(** X9.  A process the controller holds: the next Stop kills it and waits
    for it, once each, and no later call does so again. *)
Lemma held_process_reaped_once (w : World) (cmd : Cmd) (cs : list call) :
  reachable w -> ffmpegCmd (self w) = Some cmd ->
  countEv (isKill (Process cmd)) (trace w) = 0 /\
  countEv (isKill (Process cmd)) (trace (exec Stop w)) = 1 /\
  countEv (isWait (Process cmd)) (trace (exec Stop w)) = 1 /\
  countEv (isKill (Process cmd)) (trace (run cs (exec Stop w))) = 1 /\
  countEv (isWait (Process cmd)) (trace (run cs (exec Stop w))) = 1.
Proof.
  intros (file & sp & t & cs0 & ->) Hc.
  set (w := run cs0 (boot (NewAudioPlayer file sp t))) in *.
  assert (R : reaping w) by (apply reaping_run, reaping_boot; reflexivity).
  assert (R' : reaping (run cs (exec Stop w))).
  { change (reaping (run (CallStop :: cs) w)). apply reaping_run, R. }
  destruct R as (Hheld & _ & _). destruct (Hheld cmd Hc) as [_ K0].
  assert (K1 : countEv (isKill (Process cmd)) (trace (exec Stop w)) = 1).
  { rewrite Stop_exec. cbn [trace]. rewrite countEv_app, K0.
    unfold stopEvents. rewrite Hc.
    destruct (cancelPlayback (self w)), (player (self w));
      unfold countEv; cbn; rewrite Nat.eqb_refl; reflexivity. }
  assert (W1 : countEv (isWait (Process cmd)) (trace (exec Stop w)) = 1).
  { rewrite Stop_exec. cbn [trace]. rewrite countEv_app.
    assert (W0 : countEv (isWait (Process cmd)) (trace w) = 0).
    { assert (R : reaping w) by (apply reaping_run, reaping_boot; reflexivity).
      destruct R as (_ & _ & Hcount). destruct (Hcount (Process cmd)) as [-> _].
      exact K0. }
    rewrite W0. unfold stopEvents. rewrite Hc.
    destruct (cancelPlayback (self w)), (player (self w));
      unfold countEv; cbn; rewrite Nat.eqb_refl; reflexivity. }
  destruct R' as (_ & _ & Hcount'). destruct (Hcount' (Process cmd)) as [EW LE].
  destruct (run_extends cs (exec Stop w)) as [evs E].
  assert (K2 : countEv (isKill (Process cmd)) (trace (run cs (exec Stop w))) = 1).
  { rewrite E, countEv_app, K1 in LE |- *. lia. }
  repeat split; try assumption. rewrite EW. exact K2.
Qed.

(** C3, where the code departs from it: on a new controller, a Start
    whose pipe and process start succeed and whose context creation
    fails returns the wrapped error after the decoder process 0 was
    started, holds no process handle, and through whatever calls follow
    process 0 is never killed and never waited for. *)
Theorem Start_context_failure_leaks_process :
  forall (file : string) (sp : float) (t : Z) (cause : error)
         (cs : list call),
    let o := mkOutcome None None (Some cause) in
    let w0 := boot (NewAudioPlayer file sp t) in
    let w1 := exec (Start o) w0 in
    result (Start o) w0 = Some (Errorf "create oto context" cause) /\
    In (EvCmdStart 0 None) (trace w1) /\
    ffmpegCmd (self w1) = None /\
    countEv (isKill 0) (trace (run cs w1)) = 0 /\
    countEv (isWait 0) (trace (run cs w1)) = 0.
Proof.
  intros file sp t cause cs o w0 w1.
  assert (O : orphan 0 w1).
  { subst w1 w0 o. repeat split; cbn; try lia. discriminate. }
  destruct (orphan_run 0 cs w1 O) as (_ & _ & Hk & Hw).
  repeat split; try assumption. cbn. tauto.
Qed.

End Properties.

(** ** Concrete runs *)

Lemma reachable_track (cs : list call) :
  reachable exactDecimal (run exactDecimal cs (boot track)).
Proof. exists "track.mp3", 1%float, 0%Z, cs. reflexivity. Defined.

Lemma playing_run : playing = run exactDecimal [CallStart allOk] (boot track).
Proof. vm_compute. reflexivity. Defined.

Lemma failed_run : failed = run exactDecimal [CallStart notFound] (boot track).
Proof. vm_compute. reflexivity. Defined.

Lemma reachable_playing : reachable exactDecimal playing.
Proof. rewrite playing_run. apply reachable_track. Defined.

Lemma reachable_failed : reachable exactDecimal failed.
Proof. rewrite failed_run. apply reachable_track. Defined.

Example playing_trace :
  trace playing =
  [ EvCommand (mkCmd 0 "ffmpeg"
      [ "-ss"; "0"; "-i"; "track.mp3"; "-filter:a"; "atempo=1";
        "-f"; "s16le"; "-ar"; "44100"; "-ac"; "2"; "pipe:1" ]);
    EvStdoutPipe 0 None; EvWithCancel 1; EvCmdStart 0 None;
    EvNewContext 44100 2 2 4096 (inl 2); EvWgAdd 1; EvNewPlayer 2 3;
    EvGo 3 (NewReader 1 0) ].
Proof. vm_compute. reflexivity. Qed.

(** C1 as stated fails: a Start made while the first session plays
    closes the output context 2 that the first Start created, and the
    second session gets another one, 6. *)
Lemma Start_while_playing_closes_context :
  let w2 := exec (Start exactDecimal allOk) playing in
  context (self playing) = Some 2 /\
  ffmpegCmd (self playing) <> None /\
  In (EvContextClose 2) (since playing w2) /\
  context (self w2) = Some 6 /\
  context (self w2) <> context (self playing).
Proof.
  vm_compute. repeat split; try discriminate. tauto.
Qed.

Lemma playing_context : context (self playing) = Some 2.
Proof. vm_compute. reflexivity. Defined.

Lemma context_lifetime_witness :
  context (self (exec Stop playing)) = Some 2 /\
  countEv isContextClose (since playing (exec Stop playing)) = 0.
Proof.
  pose proof (context_lifetime exactDecimal playing 2
                reachable_playing playing_context) as H.
  exact (proj1 H).
Defined.

(** C2 as stated fails: after a Start that returns the error of the
    process start, the controller holds the cancel function 1 that this
    Start made, and the Stop that follows calls it. *)
Lemma Start_failure_keeps_cancel :
  result (Start exactDecimal notFound) (boot track) =
    Some (Errorf "start FFmpeg cmd"
            (errorString "executable file not found in $PATH")) /\
  cancelPlayback (self failed) = Some 1 /\
  cancelPlayback (self failed) <> None /\
  since failed (exec Stop failed) = [EvCancel 1; EvWgWait 0].
Proof.
  vm_compute. repeat split; discriminate.
Qed.

Lemma notFound_result :
  result (Start exactDecimal notFound) (boot track) =
  Some (Errorf "start FFmpeg cmd"
          (errorString "executable file not found in $PATH")).
Proof. vm_compute. reflexivity. Defined.

Lemma Start_error_state_witness :
  ffmpegCmd (self (exec (Start exactDecimal notFound) (boot track))) = None /\
  player (self (exec (Start exactDecimal notFound) (boot track))) = None.
Proof.
  pose proof (Start_error_state exactDecimal (boot track) notFound _
                (reachable_track []) notFound_result) as H.
  cbv zeta in H.
  exact (conj (proj1 (proj2 H)) (proj1 (proj2 (proj2 H)))).
Defined.

(** C9 as stated fails: after Close, a Start whose library calls
    succeed returns nil and holds a new session. *)
Lemma Start_after_Close_runs :
  let wc := exec Close playing in
  let w1 := exec (Start exactDecimal allOk) wc in
  result (Start exactDecimal allOk) wc = None /\
  ffmpegCmd (self w1) <> None /\
  player (self w1) = Some 7 /\
  In (EvCmdStart 4 None) (since wc w1).
Proof.
  vm_compute. repeat split; try discriminate. tauto.
Qed.

Lemma closed_Start_result :
  result (Start exactDecimal allOk) (exec Close playing) = None.
Proof. vm_compute. reflexivity. Defined.

Lemma Start_after_Close_witness :
  exists c octx pl : handle,
    cancelPlayback
      (self (exec (Start exactDecimal allOk) (exec Close playing))) = Some c /\
    context
      (self (exec (Start exactDecimal allOk) (exec Close playing))) = Some octx /\
    player
      (self (exec (Start exactDecimal allOk) (exec Close playing))) = Some pl.
Proof.
  pose proof (Start_after_Close exactDecimal playing allOk) as H.
  cbv zeta in H.
  destruct H as (_ & _ & _ & _ & _ & H).
  destruct (H closed_Start_result) as (c & octx & pl & _ & B & C & D & _).
  exists c, octx, pl. exact (conj B (conj C D)).
Defined.

Lemma boot_Start_result :
  result (Start exactDecimal allOk) (boot track) = None.
Proof. vm_compute. reflexivity. Defined.

Lemma Start_decoder_invocation_witness :
  exists rest : list event,
    since (boot track) (exec (Start exactDecimal allOk) (boot track)) =
      EvCommand
        (mkCmd 0 "ffmpeg"
           [ "-ss"; "0"; "-i"; "track.mp3"; "-filter:a"; "atempo=1";
             "-f"; "s16le"; "-ar"; "44100"; "-ac"; "2"; "pipe:1" ])
      :: EvStdoutPipe 0 None :: EvWithCancel 1 :: EvCmdStart 0 None :: rest /\
    result (Start exactDecimal allOk) (boot track) = None.
Proof.
  pose proof (Start_decoder_invocation exactDecimal allOk (boot track)) as H.
  cbv zeta in H.
  destruct H as (post & E & _ & _ & _ & _ & _ & Hstart & _ & Hok).
  destruct (Hstart eq_refl) as (rest & ->).
  exists rest. split; [|exact (proj1 (Hok eq_refl eq_refl eq_refl))].
  rewrite E. vm_compute. reflexivity.
Defined.

Lemma outside_3 : outsideRange 3 = true.
Proof. vm_compute. reflexivity. Defined.

Lemma speed_out_of_range_witness :
  outsideRange 3 = true /\
  speed (NewAudioPlayer "track.mp3" 3 0) = 3%float /\
  result (Start exactDecimal allOk) (boot (NewAudioPlayer "track.mp3" 1 0)) =
  result (Start exactDecimal allOk) (boot (NewAudioPlayer "track.mp3" 3 0)).
Proof.
  split; [exact outside_3|].
  pose proof (speed_out_of_range_passed_through exactDecimal
                "track.mp3" 3 0 outside_3) as H.
  split; [exact (proj1 H)|].
  exact (proj2 (proj2 (proj2 H [] allOk)) 1%float).
Defined.

Example speed_3_filter :
  nth_error (ffmpegArgs exactDecimal (NewAudioPlayer "track.mp3" 3 0)) 5 =
  Some "atempo=3".
Proof. vm_compute. reflexivity. Qed.

Lemma failed_idle : ffmpegCmd (self failed) = None.
Proof. vm_compute. reflexivity. Defined.

Lemma Stop_idle_noop_witness :
  ffmpegCmd (self failed) = None /\
  self (exec Stop failed) = self failed.
Proof.
  split; [exact failed_idle|].
  pose proof (proj1 (Stop_idle_noop exactDecimal) failed
                reachable_failed failed_idle) as H.
  exact (proj1 H).
Defined.

Lemma playing_cancel : cancelPlayback (self playing) = Some 1.
Proof. vm_compute. reflexivity. Defined.

Lemma stops_only : Forall (fun k => isStart k = false) [CallStop; CallClose].
Proof. repeat constructor. Defined.

Lemma Stop_clears_witness :
  cancelPlayback (self playing) = Some 1 /\
  cancelPlayback
    (self (run exactDecimal [CallStop; CallClose] (exec Stop playing))) =
    Some 1.
Proof.
  split; [exact playing_cancel|].
  pose proof (Stop_clears_only_process_and_player exactDecimal playing) as H.
  cbv zeta in H.
  destruct H as (_ & _ & _ & _ & _ & _ & _ & _ & _ & H).
  pose proof (H 1 [CallStop; CallClose] playing_cancel stops_only) as H'.
  exact (proj1 H').
Defined.

Lemma three_rounds_ok : startsOk exactDecimal [allOk; allOk; allOk] (boot track).
Proof. vm_compute. repeat split. Defined.


Example deviceBusy_leaks :
  let w1 := exec (Start exactDecimal deviceBusy) (boot track) in
  In (EvCmdStart 0 None) (trace w1) /\
  ffmpegCmd (self w1) = None /\
  trace (run exactDecimal [CallStop; CallClose] w1) =
    trace w1 ++ [EvCancel 1; EvWgWait 0; EvCancel 1; EvWgWait 0].
Proof. vm_compute. repeat split. tauto. Qed.

(** The reader of the playing session after Stop, and before. *)
Lemma readerCtx_Read_witness :
  In 1 (cancelled (trace (exec Stop playing))) /\
  readerCtx_Read (cancelled (trace (exec Stop playing)))
                 (NewReader 1 source) buffer =
  mkRead buffer 0 (Some Canceled) (NewReader 1 source).
Proof.
  assert (H : In 1 (cancelled (trace (exec Stop playing))))
    by (vm_compute; tauto).
  split; [exact H|].
  exact (proj1 (readerCtx_Read_spec _ _
                  (cancelled (trace (exec Stop playing)))
                  (NewReader 1 source) buffer) H).
Defined.

Example reader_while_playing :
  readerCtx_Read (cancelled (trace playing)) (NewReader 1 source) buffer =
  mkRead [Byte.x01; Byte.x02] 2 None
         (NewReader 1 (mkCounting 1 [Byte.x03])).
Proof. vm_compute. reflexivity. Qed.

(** ** Further properties of the package *)

Section MoreProperties.

Variable FormatFloat : float -> ascii -> Z -> Z -> string.

#[local] Abbreviation Start := (Start FormatFloat).
#[local] Abbreviation step := (step FormatFloat).
#[local] Abbreviation run := (run FormatFloat).
#[local] Abbreviation reachable := (reachable FormatFloat).

(** X1.  Close twice: after Close the controller holds nothing, and a second
    Close changes no field, hands out nothing and ends nothing. *)
Theorem Close_idempotent :
  forall w : World,
    let w1 := exec Close w in
    self (exec Close w1) = self w1 /\
    ffmpegPath (exec Close w1) = ffmpegPath w1 /\
    next (exec Close w1) = next w1 /\
    countEv isTeardown (since w1 (exec Close w1)) = 0 /\
    since w1 (exec Close w1) =
      match cancelPlayback (self w) with
      | Some c => [EvCancel c]
      | None => []
      end ++ [EvWgWait 0].
Proof.
  intros w w1. subst w1. rewrite Close_since, !Close_exec.
  cbn [self ffmpegPath next]. open_world w.
  destruct cp; repeat split.
Qed.

(** X2.  Start on a controller that holds a process is Close followed by
    Start: same result, same world. *)
Theorem Start_restart_is_Close_then_Start :
  forall (w : World) (o : Outcome),
    ffmpegCmd (self w) <> None ->
    runState (Start o) w = runState (Start o) (exec Close w).
Proof.
  intros w o H. rewrite Close_exec. revert H.
  by_cases w o; intros H; tidy; reflexivity.
Qed.

(** X3.  When Start returns nil. *)
Theorem Start_succeeds_iff :
  forall (w : World) (o : Outcome),
    result (Start o) w = None <->
    pipeErr o = None /\ startErr o = None /\
    (otoErr o = None \/
     (ffmpegCmd (self w) = None /\ context (self w) <> None)).
Proof.
  intros w o.
  by_cases w o; intuition congruence.
Qed.

(** *** What every reachable controller keeps to *)

Lemma whole_step (c : call) (w : World) :
  wf w -> whole w -> whole (exec (step c) w).
Proof.
  intros [H1 _] [W1 W2]. destruct c as [o| | |newPath|].
  - rewrite exec_CallStart. revert H1 W1 W2.
    by_cases w o; intros H1 W1 W2; use_wf H1;
      (split; [lia | intros ?; repeat split; congruence]).
  - rewrite Stop_exec. split; cbn; [lia | congruence].
  - rewrite Close_exec. split; cbn; [lia | congruence].
  - split; [exact W1 | exact W2].
  - revert H1 W1 W2. open_world w. destruct n; split_options; eval_world;
      intros H1 W1 W2; (split; [lia | congruence]).
Qed.

Lemma reachable_whole (w : World) : reachable w -> whole w.
Proof.
  intros (file & sp & t & cs & ->).
  assert (G : forall cs w, wf w -> whole w -> whole (run cs w)).
  { clear. intros cs. induction cs as [|c cs IH]; intros w Hwf Hw; [exact Hw|].
    cbn. apply IH; [apply wf_step, Hwf | apply whole_step; assumption]. }
  apply G; [apply wf_boot|]. split; cbn; [lia | congruence].
Qed.

(** X4.  When the calls on a controller do not overlap, it holds a whole
    session or none between them: without process handle it has no
    player and no goroutine is counted; with one it has a player, an
    output context and a cancel function; and never is more than one
    goroutine counted. *)
Theorem session_whole_or_none :
  forall w : World,
    reachable w ->
    wg (self w) <= 1 /\
    (ffmpegCmd (self w) = None ->
     player (self w) = None /\ wg (self w) = 0) /\
    (ffmpegCmd (self w) <> None ->
     player (self w) <> None /\ context (self w) <> None /\
     cancelPlayback (self w) <> None).
Proof.
  intros w R. destruct (reachable_wf FormatFloat w R) as [H1 _].
  destruct (reachable_whole w R) as [W1 W2]. auto.
Qed.

(** *** Players and output contexts made and closed *)

Lemma step_balance (c : call) (w : World) :
  wf w ->
  countEv isNewPlayer (since w (exec (step c) w)) + held (player (self w)) =
    countEv isPlayerClose (since w (exec (step c) w)) +
    held (player (self (exec (step c) w))) /\
  countEv isContextMade (since w (exec (step c) w)) + held (context (self w)) =
    countEv isContextClose (since w (exec (step c) w)) +
    held (context (self (exec (step c) w))).
Proof.
  intros [H1 _]. destruct c as [o| | |newPath|].
  - rewrite exec_CallStart. revert H1.
    by_cases w o; intros H1; use_wf H1; tidy; split; reflexivity.
  - rewrite Stop_since, Stop_exec. open_world w.
    split_options; split; reflexivity.
  - rewrite Close_since, Close_exec. open_world w.
    split_options; split; reflexivity.
  - open_world w. eval_world. split; reflexivity.
  - open_world w. destruct n; split_options; eval_world; split; reflexivity.
Qed.

Lemma balanced_step (c : call) (w : World) :
  wf w -> balanced w -> balanced (exec (step c) w).
Proof.
  intros Hwf [B1 B2].
  destruct (step_balance c w Hwf) as [S1 S2].
  destruct (step_extends FormatFloat c w) as [evs E].
  rewrite (since_app _ _ _ E) in S1, S2.
  unfold balanced. rewrite E, !countEv_app. lia.
Qed.


(** *** The goroutine's own end *)

(** When [io.Copy] returns by itself, the goroutine's tail leaves the
    controller as Stop does, ends what Stop ends and cancels what Stop
    cancels. *)
Theorem copyReturns_as_Stop :
  forall w : World,
    self (exec copyReturns w) = self (exec Stop w) /\
    filter isTeardown (since w (exec copyReturns w)) =
      filter isTeardown (since w (exec Stop w)) /\
    cancelled (since w (exec copyReturns w)) =
      cancelled (since w (exec Stop w)) /\
    ffmpegPath (exec copyReturns w) = ffmpegPath w /\
    next (exec copyReturns w) = next w.
Proof.
  intros w. rewrite Stop_since, Stop_exec. open_world w.
  destruct n; split_options; eval_world; repeat split.
Qed.

(** *** The package variable *)

Lemma path_step (c : call) (w : World) :
  isSetPath c = false -> ffmpegPath (exec (step c) w) = ffmpegPath w.
Proof.
  destruct c as [o| | |newPath|]; intros H; try discriminate H.
  - rewrite exec_CallStart. by_cases w o; reflexivity.
  - rewrite Stop_exec. reflexivity.
  - rewrite Close_exec. reflexivity.
  - open_world w. destruct n; split_options; reflexivity.
Qed.

Lemma path_run (cs : list call) (w : World) :
  Forall (fun c => isSetPath c = false) cs ->
  ffmpegPath (run cs w) = ffmpegPath w.
Proof.
  intros F. revert w. induction F as [|c cs Hc _ IH]; intros w; [reflexivity|].
  cbn. rewrite IH. apply path_step, Hc.
Qed.

(** X11.  SetFFmpegPath touches neither controller nor trace, no other call
    assigns the package variable, and so the command of every Start made
    after it, whatever calls lie between, names the executable it set;
    a process handle held meanwhile keeps the command it was built
    with. *)
Theorem SetFFmpegPath_governs_later_Starts :
  forall (w : World) (path : string) (cs : list call) (o : Outcome),
    Forall (fun c => isSetPath c = false) cs ->
    let w0 := exec (SetFFmpegPath path) w in
    let w1 := run cs w0 in
    self w0 = self w /\ trace w0 = trace w /\ next w0 = next w /\
    ffmpegPath w1 = path /\
    exists cmd : Cmd,
      In (EvCommand cmd) (since w1 (exec (Start o) w1)) /\
      Path cmd = path /\
      (forall cmd', In (EvCommand cmd') (since w1 (exec (Start o) w1)) ->
                    cmd' = cmd).
Proof.
  intros w path cs o F w0 w1.
  assert (P : ffmpegPath w1 = path).
  { subst w1. rewrite path_run by exact F. reflexivity. }
  repeat split; try exact P.
  destruct (Start_builds FormatFloat o w1) as [Hin Huniq].
  eexists. split; [exact Hin|]. split; [exact P | exact Huniq].
Qed.

(** *** Readers and their contexts *)

Lemma cancelled_app (l l' : list event) :
  cancelled (l ++ l') = cancelled l ++ cancelled l'.
Proof. unfold cancelled. apply flat_map_app. Qed.

(** A goroutine spawned by a call reads through the context whose cancel
    function the controller holds after the call. *)
Lemma step_spawns (c : call) (w : World) (pl : handle) (rd : readerCtx handle) :
  In (EvGo pl rd) (since w (exec (step c) w)) ->
  ffmpegCmd (self (exec (step c) w)) <> None /\
  cancelPlayback (self (exec (step c) w)) = Some (ctx rd).
Proof.
  destruct c as [o| | |newPath|].
  - rewrite exec_CallStart.
    by_cases w o; intros H; in_cases H; injection H as <- <-;
      (split; [discriminate | reflexivity]).
  - rewrite Stop_since. open_world w. split_options; intros H; in_cases H.
  - rewrite Close_since. open_world w. split_options; intros H; in_cases H.
  - open_world w. eval_world. intros [].
  - open_world w. destruct n; split_options; eval_world; intros H; in_cases H.
Qed.

(** The cancel function of a held session is called by the call, or the
    session is still held after it. *)
Lemma step_cancels_or_keeps (c : call) (w : World) (k : handle) :
  ffmpegCmd (self w) <> None -> cancelPlayback (self w) = Some k ->
  In k (cancelled (since w (exec (step c) w))) \/
  (ffmpegCmd (self (exec (step c) w)) <> None /\
   cancelPlayback (self (exec (step c) w)) = Some k).
Proof.
  destruct c as [o| | |newPath|].
  - rewrite exec_CallStart.
    by_cases w o; intros H E; tidy; left; cbn; tauto.
  - rewrite Stop_since. open_world w. split_options; cbn; intros H E; tidy;
      left; tauto.
  - rewrite Close_since. open_world w. split_options; cbn; intros H E; tidy;
      left; tauto.
  - open_world w. eval_world. intros H E. right. split; assumption.
  - open_world w. destruct n; split_options; eval_world; intros H E; tidy;
      left; cbn; tauto.
Qed.

Lemma readersDone_step (c : call) (w : World) :
  readersDone w -> readersDone (exec (step c) w).
Proof.
  intros J pl rd Hin.
  destruct (step_extends FormatFloat c w) as [evs E].
  pose proof (step_spawns c w pl rd) as Sp.
  pose proof (step_cancels_or_keeps c w (ctx rd)) as Ck.
  rewrite (since_app _ _ _ E) in Sp, Ck.
  rewrite E in Hin |- *. rewrite cancelled_app.
  apply in_app_or in Hin. destruct Hin as [Hold|Hnew].
  - destruct (J pl rd Hold) as [Hc|[Hf Hk]].
    + left. apply in_or_app. left. exact Hc.
    + destruct (Ck Hf Hk) as [Hc|Hkeep].
      * left. apply in_or_app. right. exact Hc.
      * right. exact Hkeep.
  - right. apply Sp, Hnew.
Qed.

Lemma reachable_readersDone (w : World) : reachable w -> readersDone w.
Proof.
  intros (file & sp & t & cs & ->).
  assert (G : forall cs w, readersDone w -> readersDone (run cs w)).
  { clear. intros cs. induction cs as [|c cs IH]; intros w Hw; [exact Hw|].
    cbn. apply IH, readersDone_step, Hw. }
  apply G. intros pl rd [].
Qed.

(** X6.  When the calls on a controller do not overlap, there is one live
    reader at most: of all the readers ever given to a copy goroutine,
    only the one of the session the controller holds can have a context
    that is not cancelled, and its cancel function is the one the
    controller holds; a controller without process handle has none. *)
Theorem one_live_reader :
  forall (w : World) (pl : handle) (rd : readerCtx handle),
    reachable w ->
    In (EvGo pl rd) (trace w) ->
    ~ In (ctx rd) (cancelled (trace w)) ->
    ffmpegCmd (self w) <> None /\ cancelPlayback (self w) = Some (ctx rd).
Proof.
  intros w pl rd R Hin Hlive.
  destruct (reachable_readersDone w R pl rd Hin) as [Hc|H];
    [contradiction | exact H].
Qed.

(** X7.  When the calls on a controller do not overlap, Stop reaches every
    reader: after a Stop that follows such calls, the Read of every
    reader that was ever given to a copy goroutine returns 0 and
    context.Canceled and leaves buffer and pipe alone, whatever the pipe
    would deliver. *)
Theorem Stop_cancels_every_reader :
  forall (RD : Reader handle) (w : World) (pl : handle)
         (rd : readerCtx handle) (p : list Byte.byte),
    reachable w ->
    In (EvGo pl rd) (trace (exec Stop w)) ->
    readerCtx_Read (cancelled (trace (exec Stop w))) rd p =
    mkRead p 0 (Some Canceled) rd.
Proof.
  intros RD w pl rd p R Hin.
  assert (R' : reachable (exec Stop w)).
  { apply (reachable_run FormatFloat [CallStop] w R). }
  destruct (reachable_readersDone _ R' pl rd Hin) as [Hc|[Hf _]].
  - unfold readerCtx_Read. rewrite (ctx_Err_fired _ _ Hc). reflexivity.
  - rewrite Stop_exec in Hf. cbn in Hf. contradict Hf. reflexivity.
Qed.

(** *** A cancel function that is never called *)

(** A call cancels nothing but the cancel function the controller holds,
    and the one it holds afterwards is that one or a new one. *)
Lemma step_cancel_only (c : call) (w : World) :
  (forall k, In k (cancelled (since w (exec (step c) w))) ->
             cancelPlayback (self w) = Some k) /\
  (cancelPlayback (self (exec (step c) w)) = cancelPlayback (self w) \/
   exists k', cancelPlayback (self (exec (step c) w)) = Some k' /\
              next w <= k' < next (exec (step c) w)).
Proof.
  destruct c as [o| | |newPath|].
  - rewrite exec_CallStart.
    by_cases w o;
      (split; [ intros k H; in_cases H; subst; reflexivity
              | first [ left; reflexivity
                      | right; eexists; split; [reflexivity | cbn; lia] ] ]).
  - rewrite Stop_since, Stop_exec. open_world w. split_options; cbn;
      (split; [intros k H; in_cases H; subst; reflexivity | left; reflexivity]).
  - rewrite Close_since, Close_exec. open_world w. split_options; cbn;
      (split; [intros k H; in_cases H; subst; reflexivity | left; reflexivity]).
  - open_world w. eval_world. split; [intros k [] | left; reflexivity].
  - open_world w. destruct n; split_options; eval_world;
      (split; [intros k H; in_cases H; subst; reflexivity | left; reflexivity]).
Qed.

Lemma tokens_step (c : call) (w : World) : tokens w -> tokens (exec (step c) w).
Proof.
  intros [T1 T2].
  destruct (step_cancel_only c w) as [Honly Hnew].
  destruct (step_reaps FormatFloat c w) as (Hn & _ & _).
  destruct (step_extends FormatFloat c w) as [evs E].
  rewrite (since_app _ _ _ E) in Honly.
  split.
  - intros k Hk. destruct Hnew as [Hsame|(k' & Hk' & Hb)].
    + rewrite Hsame in Hk. specialize (T1 k Hk). lia.
    + rewrite Hk' in Hk. injection Hk as <-. lia.
  - intros k Hk. rewrite E, cancelled_app in Hk.
    apply in_app_or in Hk. destruct Hk as [Hk|Hk].
    + specialize (T2 k Hk). lia.
    + specialize (T1 k (Honly k Hk)). lia.
Qed.

Lemma reachable_tokens (w : World) : reachable w -> tokens w.
Proof.
  intros (file & sp & t & cs & ->).
  assert (G : forall cs w, tokens w -> tokens (run cs w)).
  { clear. intros cs. induction cs as [|c cs IH]; intros w Hw; [exact Hw|].
    cbn. apply IH, tokens_step, Hw. }
  apply G. split; [intros k H; discriminate H | intros k []].
Qed.

Lemma lost_step (k : handle) (c : call) (w : World) :
  lost k w -> lost k (exec (step c) w).
Proof.
  intros (Hlt & Hne & Hnc).
  destruct (step_cancel_only c w) as [Honly Hnew].
  destruct (step_reaps FormatFloat c w) as (Hn & _ & _).
  destruct (step_extends FormatFloat c w) as [evs E].
  rewrite (since_app _ _ _ E) in Honly.
  repeat split.
  - lia.
  - intros Hk. destruct Hnew as [Hsame|(k' & Hk' & Hb)].
    + rewrite Hsame in Hk. contradiction.
    + rewrite Hk' in Hk. injection Hk as ->. lia.
  - rewrite E, cancelled_app. intros Hk.
    apply in_app_or in Hk. destruct Hk as [Hk|Hk]; [contradiction|].
    apply Hne, Honly, Hk.
Qed.

Lemma lost_run (k : handle) (cs : list call) (w : World) :
  lost k w -> lost k (run cs w).
Proof.
  revert w. induction cs as [|c cs IH]; intros w H; [exact H|].
  cbn. apply IH, lost_step, H.
Qed.

(** A Start that fails after the pipe was made leaves its new cancel
    function in the controller, not yet called. *)
Lemma failed_Start_cancel (w : World) (o : Outcome) (err : error) :
  wf w -> tokens w ->
  pipeErr o = None -> result (Start o) w = Some err ->
  ffmpegCmd (self (exec (Start o) w)) = None /\
  exists k : handle,
    cancelPlayback (self (exec (Start o) w)) = Some k /\
    In (EvWithCancel k) (since w (exec (Start o) w)) /\
    k < next (exec (Start o) w) /\
    ~ In k (cancelled (trace (exec (Start o) w))).
Proof.
  intros [H1 _] [T1 T2] Hp Hr.
  destruct (Start_extends FormatFloat o w) as [evs E].
  assert (Fresh : ~ In (S (next w)) (cancelled (trace w))).
  { intros H. specialize (T2 _ H). lia. }
  rewrite E, cancelled_app. rewrite <- (since_app _ _ _ E).
  clear E T2. revert H1 T1 Hp Hr Fresh.
  by_cases w o; intros H1 T1 Hp Hr Fresh; use_wf H1; tidy;
    (split; [reflexivity|]); eexists;
    (split; [reflexivity|]); (split; [cbn; tauto|]); (split; [cbn; lia|]);
    (let X := fresh "X" in
     intros X; apply in_app_or in X; destruct X as [X|X];
     try contradiction; in_cases X;
     match goal with
     | T : forall k, Some ?h = Some k -> _ |- _ =>
         specialize (T h eq_refl); lia
     end).
Qed.

(** An idle Start whose pipe is made replaces the cancel function the
    controller holds without calling it. *)
Lemma idle_Start_loses_cancel (w : World) (o : Outcome) (k : handle) :
  ffmpegCmd (self w) = None -> cancelPlayback (self w) = Some k ->
  k < next w -> ~ In k (cancelled (trace w)) ->
  pipeErr o = None ->
  lost k (exec (Start o) w).
Proof.
  intros Hf Hk Hlt Hnc Hp.
  destruct (Start_extends FormatFloat o w) as [evs E].
  unfold lost. rewrite E, cancelled_app. rewrite <- (since_app _ _ _ E).
  clear E. revert Hf Hk Hlt Hnc Hp.
  by_cases w o; intros Hf Hk Hlt Hnc Hp; tidy;
    (split; [cbn; lia|]);
    (split; [ let F := fresh "F" in intros [= F]; lia
            | let X := fresh "X" in
              intros X; apply in_app_or in X; destruct X as [X|X];
              [contradiction | in_cases X] ]).
Qed.

(** X10.  The cancel function of a failed Start is lost by the next Start:
    when a Start fails after its pipe was made (process start or context
    creation), the cancel function it made stays in the controller; if
    the next call is a Start whose pipe is made, that Start replaces it
    without calling it, and no later call ever calls it. *)
Theorem failed_Start_cancel_never_called :
  forall (w : World) (o o' : Outcome) (err : error) (cs : list call),
    reachable w ->
    pipeErr o = None -> result (Start o) w = Some err ->
    pipeErr o' = None ->
    let w1 := exec (Start o) w in
    exists k : handle,
      cancelPlayback (self w1) = Some k /\
      In (EvWithCancel k) (since w w1) /\
      ~ In k (cancelled (trace (run cs (exec (Start o') w1)))).
Proof.
  intros w o o' err cs R Hp Hr Hp' w1.
  destruct (failed_Start_cancel w o err (reachable_wf FormatFloat w R)
              (reachable_tokens w R) Hp Hr)
    as (Hf & k & Hk & Hin & Hlt & Hnc).
  exists k. split; [exact Hk|]. split; [exact Hin|].
  apply (lost_run k cs), (idle_Start_loses_cancel w1 o' k); assumption.
Qed.

(** *** Processes killed *)

Lemma step_starts (c : call) (w : World) (cmd : Cmd) :
  ffmpegCmd (self (exec (step c) w)) = Some cmd ->
  ffmpegCmd (self w) = Some cmd \/
  In (EvCmdStart (Process cmd) None) (since w (exec (step c) w)).
Proof.
  destruct c as [o| | |newPath|].
  - rewrite exec_CallStart. revert cmd.
    by_cases w o; intros cmd E; tidy; right; cbn; tauto.
  - rewrite Stop_exec. intros E. discriminate E.
  - rewrite Close_exec. intros E. discriminate E.
  - open_world w. eval_world. intros E. left. exact E.
  - revert cmd. open_world w. destruct n; split_options; eval_world;
      intros cmd E; discriminate E.
Qed.

Lemma started_step (c : call) (w : World) :
  started w -> started (exec (step c) w).
Proof.
  intros St p H.
  destruct (step_reaps FormatFloat c w) as (_ & _ & Hr).
  destruct (step_extends FormatFloat c w) as [evs E].
  pose proof (step_starts c w) as Hs.
  rewrite (since_app _ _ _ E) in Hr, Hs. rewrite E in H |- *.
  apply in_or_app.
  assert (Old : (exists cmd, ffmpegCmd (self w) = Some cmd /\ Process cmd = p) ->
                In (EvCmdStart p None) (trace w)).
  { intros X. apply St. right. right. exact X. }
  destruct H as [H|[H|(cmd & Hc & <-)]].
  - apply in_app_or in H. destruct H as [H|H].
    + left. apply St. left. exact H.
    + left. apply Old, Hr. left. exact H.
  - apply in_app_or in H. destruct H as [H|H].
    + left. apply St. right. left. exact H.
    + left. apply Old, Hr. right. exact H.
  - destruct (Hs cmd Hc) as [Hold|Hnew].
    + left. apply Old. exists cmd. split; [exact Hold | reflexivity].
    + right. exact Hnew.
Qed.

Lemma reachable_started (w : World) : reachable w -> started w.
Proof.
  intros (file & sp & t & cs & ->).
  assert (G : forall cs w, started w -> started (run cs w)).
  { clear. intros cs. induction cs as [|c cs IH]; intros w Hw; [exact Hw|].
    cbn. apply IH, started_step, Hw. }
  apply G. intros p [[]|[[]|(cmd & Hc & _)]]. discriminate Hc.
Qed.

(** X8.  No process is killed or waited for twice, none that was not
    started, and none is waited for without being killed: in every
    reachable world each process has as many waits as kills, at most one,
    and every process killed or held has a successful start in the
    trace. *)
Theorem processes_killed_once_and_started :
  forall (w : World) (p : handle),
    reachable w ->
    countEv (isWait p) (trace w) = countEv (isKill p) (trace w) /\
    countEv (isKill p) (trace w) <= 1 /\
    (In (EvKill p) (trace w) -> In (EvCmdStart p None) (trace w)) /\
    (forall cmd, ffmpegCmd (self w) = Some cmd ->
                 In (EvCmdStart (Process cmd) None) (trace w) /\
                 countEv (isKill (Process cmd)) (trace w) = 0).
Proof.
  intros w p R.
  pose proof (reachable_started w R) as St.
  assert (Rp : reaping w).
  { destruct R as (file & sp & t & cs & ->).
    apply reaping_run, reaping_boot. reflexivity. }
  destruct Rp as (Hheld & _ & Hcount).
  destruct (Hcount p) as [A B].
  repeat split; try assumption.
  - intros H. apply St. left. exact H.
  - apply St. right. right. exists cmd. split; [assumption | reflexivity].
  - apply Hheld. assumption.
Qed.

(** *** The lock and the wait *)

Lemma Stop_pieces (w : World) :
  runState Stop w = runState (cancelSession ;; wg_Wait ;; release) w.
Proof. open_world w. split_options; lazy; reflexivity. Qed.

Lemma Close_pieces (w : World) :
  runState Close w = runState (Stop ;; closeContext) w.
Proof. reflexivity. Qed.

Lemma Start_pieces (o : Outcome) (w : World) :
  runState (Start o) w =
  runState (fc <- field ffmpegCmd ;;
            match fc with
            | Some _ => Close
            | None => ret tt
            end ;;
            launch FormatFloat o) w.
Proof. reflexivity. Qed.

(** X12.  One caller, no other about, the mutex free at entry.  No method
    ever locks the mutex while it holds it or unlocks it while it is
    free: Start gives the lock up before its call of Close and takes it
    again after.  Stop, Close and a Start on a controller that holds a
    process return, with the mutex free, when no goroutine is counted or
    the goroutine's pending read ends; if a goroutine is counted and its
    read never ends they stay in the wait of Stop, with the mutex held,
    the cancel function called and nothing killed or closed.  A Start on
    a controller without process always returns, on its error returns
    too.  The goroutine's own Stop never waits for the goroutine itself,
    which has called Done before. *)
Theorem lock_and_wait :
  forall (w : World) (o : Outcome) (readEnds : bool),
    let waits := match wg (self w) with O => false | S _ => negb readEnds end in
    Stop_mu readEnds (mkGuarded false w) =
      (if waits then HangsInWait (mkGuarded true (exec cancelSession w))
       else Returns tt (mkGuarded false (exec Stop w))) /\
    Close_mu readEnds (mkGuarded false w) =
      (if waits then HangsInWait (mkGuarded true (exec cancelSession w))
       else Returns tt (mkGuarded false (exec Close w))) /\
    Start_mu FormatFloat o readEnds (mkGuarded false w) =
      (match ffmpegCmd (self w) with
       | Some _ =>
           if waits then HangsInWait (mkGuarded true (exec cancelSession w))
           else Returns (result (Start o) w)
                        (mkGuarded false (exec (Start o) w))
       | None => Returns (result (Start o) w)
                         (mkGuarded false (exec (Start o) w))
       end) /\
    (0 < wg (self w) <= 1 ->
     copyReturns_mu readEnds (mkGuarded false w) =
       Returns tt (mkGuarded false (exec copyReturns w))).
Proof.
  intros w o readEnds waits. subst waits. repeat split.
  - open_world w. destruct n, readEnds; split_options; eval_world;
      reflexivity.
  - open_world w. destruct n, readEnds; split_options; eval_world;
      reflexivity.
  - open_world w. open_outcome o; destruct n, readEnds; split_options;
      eval_world; reflexivity.
  - open_world w. cbn [wg self]. intros [H1 H2].
    destruct n as [|[|n]]; try lia.
    destruct readEnds; split_options; lazy; reflexivity.
Qed.

(** *** A session from Start to Stop *)

(** X13.  A Start that returns nil leaves a session made of what it made
    itself: the process of its command, started; the cancel function of
    the context its reader checks; a player made from the output context
    the controller holds; one goroutine counted.  The last things it does
    are to count the goroutine, make the player and spawn the copy, in
    this order, after the process start. *)
Theorem Start_success_session :
  forall (w : World) (o : Outcome),
    reachable w -> result (Start o) w = None ->
    let w1 := exec (Start o) w in
    exists (c octx pl : handle) (before : list event),
      ffmpegCmd (self w1) =
        Some (mkCmd (next w) (ffmpegPath w) (ffmpegArgs FormatFloat (self w))) /\
      cancelPlayback (self w1) = Some c /\
      context (self w1) = Some octx /\
      player (self w1) = Some pl /\
      wg (self w1) = 1 /\
      since w w1 =
        before ++ [EvWgAdd 1; EvNewPlayer octx pl;
                   EvGo pl (NewReader c (next w))] /\
      In (EvCmdStart (next w) None) before /\
      In (EvWithCancel c) before.
Proof.
  intros w o R Hr w1. subst w1.
  destruct (reachable_wf FormatFloat w R) as [H1 _]. clear R. revert H1 Hr.
  by_cases w o; intros H1 Hr; use_wf H1; tidy;
    do 4 eexists;
    do 5 (split; [reflexivity|]);
    (split; [ match goal with
              | |- ?l = ?b ++ _ =>
                  let b' := eval lazy [firstn length Nat.sub] in
                            (firstn (length l - 3) l) in
                  unify b b'; reflexivity
              end
            | split; cbn; tauto ]).
Qed.

(** X14.  Stop on a controller that holds a session does five things in this
    order: it calls the session's cancel function, waits for the
    goroutine, kills the process, waits for the process, closes the
    player; Close then closes the output context. *)
Theorem Stop_teardown_order :
  forall w : World,
    reachable w -> ffmpegCmd (self w) <> None ->
    exists (c : handle) (cmd : Cmd) (pl octx : handle),
      cancelPlayback (self w) = Some c /\
      ffmpegCmd (self w) = Some cmd /\
      player (self w) = Some pl /\
      context (self w) = Some octx /\
      since w (exec Stop w) =
        [EvCancel c; EvWgWait (wg (self w)); EvKill (Process cmd);
         EvWait (Process cmd); EvPlayerClose pl] /\
      since w (exec Close w) =
        [EvCancel c; EvWgWait (wg (self w)); EvKill (Process cmd);
         EvWait (Process cmd); EvPlayerClose pl; EvContextClose octx].
Proof.
  intros w R Hf.
  destruct (reachable_whole w R) as [_ W]. destruct (W Hf) as (Hp & Hc & Hk).
  rewrite Stop_since, Close_since. clear R W.
  open_world w. cbn in *.
  destruct cp as [c|]; [|congruence]. destruct fc as [cmd|]; [|congruence].
  destruct pl as [pl|]; [|congruence]. destruct oc as [octx|]; [|congruence].
  exists c, cmd, pl, octx. repeat split.
Qed.

End MoreProperties.

(** ** More concrete runs *)

Lemma playing_active : ffmpegCmd (self playing) <> None.
Proof. vm_compute. discriminate. Defined.

Lemma Start_restart_witness :
  ffmpegCmd (self playing) <> None /\
  runState (Start exactDecimal allOk) playing =
  runState (Start exactDecimal allOk) (exec Close playing).
Proof.
  split; [exact playing_active|].
  exact (Start_restart_is_Close_then_Start exactDecimal playing allOk
           playing_active).
Defined.

Lemma session_whole_or_none_witness :
  reachable exactDecimal playing /\ wg (self playing) <= 1.
Proof.
  split; [exact reachable_playing|].
  exact (proj1 (session_whole_or_none exactDecimal playing reachable_playing)).
Defined.


Lemma no_SetPath : Forall (fun c => isSetPath c = false)
                          [CallStart allOk; CallStop].
Proof. repeat constructor. Defined.

Lemma SetFFmpegPath_witness :
  Forall (fun c => isSetPath c = false) [CallStart allOk; CallStop] /\
  ffmpegPath
    (run exactDecimal [CallStart allOk; CallStop]
         (exec (SetFFmpegPath "/opt/ffmpeg/bin/ffmpeg") (boot track))) =
  "/opt/ffmpeg/bin/ffmpeg".
Proof.
  split; [exact no_SetPath|].
  pose proof (SetFFmpegPath_governs_later_Starts exactDecimal (boot track)
                "/opt/ffmpeg/bin/ffmpeg" [CallStart allOk; CallStop] allOk
                no_SetPath) as H.
  cbv zeta in H.
  exact (proj1 (proj2 (proj2 (proj2 H)))).
Defined.

Lemma playing_go : In (EvGo 3 (NewReader 1 0)) (trace playing).
Proof. vm_compute. tauto. Defined.

Lemma playing_live : ~ In (ctx (NewReader 1 0)) (cancelled (trace playing)).
Proof. vm_compute. tauto. Defined.

Lemma one_live_reader_witness :
  In (EvGo 3 (NewReader 1 0)) (trace playing) /\
  ~ In (ctx (NewReader 1 0)) (cancelled (trace playing)) /\
  cancelPlayback (self playing) = Some (ctx (NewReader 1 0)).
Proof.
  split; [exact playing_go|]. split; [exact playing_live|].
  exact (proj2 (one_live_reader exactDecimal playing 3 (NewReader 1 0)
                  reachable_playing playing_go playing_live)).
Defined.

Lemma stopped_go : In (EvGo 3 (NewReader 1 0)) (trace (exec Stop playing)).
Proof. vm_compute. tauto. Defined.

Lemma Stop_cancels_every_reader_witness :
  In (EvGo 3 (NewReader 1 0)) (trace (exec Stop playing)) /\
  @readerCtx_Read handle drained (cancelled (trace (exec Stop playing)))
                  (NewReader 1 0) buffer =
  mkRead buffer 0 (Some Canceled) (NewReader 1 0).
Proof.
  split; [exact stopped_go|].
  exact (Stop_cancels_every_reader exactDecimal drained playing 3
           (NewReader 1 0) buffer reachable_playing stopped_go).
Defined.

Lemma notFound_pipe : pipeErr notFound = None.
Proof. reflexivity. Defined.

Lemma allOk_pipe : pipeErr allOk = None.
Proof. reflexivity. Defined.

Lemma failed_Start_cancel_witness :
  result (Start exactDecimal notFound) (boot track) =
    Some (Errorf "start FFmpeg cmd"
            (errorString "executable file not found in $PATH")) /\
  exists k : handle,
    cancelPlayback (self (exec (Start exactDecimal notFound) (boot track))) =
      Some k /\
    ~ In k (cancelled
              (trace (run exactDecimal [CallStop; CallClose]
                        (exec (Start exactDecimal allOk)
                              (exec (Start exactDecimal notFound)
                                    (boot track)))))).
Proof.
  split; [exact notFound_result|].
  pose proof (failed_Start_cancel_never_called exactDecimal (boot track)
                notFound allOk _ [CallStop; CallClose] (reachable_track [])
                notFound_pipe notFound_result allOk_pipe) as H.
  cbv zeta in H. destruct H as (k & A & _ & B).
  exists k. split; [exact A | exact B].
Defined.

Lemma processes_killed_once_witness :
  reachable exactDecimal playing /\
  countEv (isKill 0) (trace playing) <= 1.
Proof.
  split; [exact reachable_playing|].
  exact (proj1 (proj2 (processes_killed_once_and_started exactDecimal
                         playing 0 reachable_playing))).
Defined.

Lemma playing_holds :
  ffmpegCmd (self playing) =
  Some (mkCmd 0 "ffmpeg" (ffmpegArgs exactDecimal track)).
Proof. vm_compute. reflexivity. Defined.

Lemma held_process_reaped_once_witness :
  countEv (isKill 0)
    (trace (run exactDecimal [CallStart allOk; CallClose] (exec Stop playing)))
  = 1.
Proof.
  pose proof (held_process_reaped_once exactDecimal playing _
                [CallStart allOk; CallClose] reachable_playing playing_holds)
    as H.
  exact (proj1 (proj2 (proj2 (proj2 H)))).
Defined.

Lemma playing_counted : 0 < wg (self playing) <= 1.
Proof. vm_compute. split; repeat constructor. Defined.

(** The playing controller: the goroutine's own Stop returns even when
    reads never end; a caller's Stop then stays in its wait. *)
Lemma lock_and_wait_witness :
  0 < wg (self playing) <= 1 /\
  copyReturns_mu false (mkGuarded false playing) =
  Returns tt (mkGuarded false (exec copyReturns playing)).
Proof.
  split; [exact playing_counted|].
  pose proof (lock_and_wait exactDecimal playing allOk false) as H.
  cbv zeta in H.
  exact (proj2 (proj2 (proj2 H)) playing_counted).
Defined.

Example Stop_stays_in_wait :
  Stop_mu false (mkGuarded false playing) =
  HangsInWait (mkGuarded true (exec cancelSession playing)) /\
  cancelled (trace (exec cancelSession playing)) = [1] /\
  countEv isTeardown (trace (exec cancelSession playing)) = 0.
Proof. vm_compute. repeat split. Qed.

Example restart_with_read_ending :
  Start_mu exactDecimal deviceBusy true (mkGuarded false playing) =
  Returns (Some (Errorf "create oto context"
                   (errorString "device or resource busy")))
          (mkGuarded false (exec (Start exactDecimal deviceBusy) playing)).
Proof. vm_compute. reflexivity. Qed.

Lemma Start_success_session_witness :
  result (Start exactDecimal allOk) (boot track) = None /\
  exists c octx pl : handle,
    cancelPlayback (self playing) = Some c /\
    context (self playing) = Some octx /\
    player (self playing) = Some pl.
Proof.
  split; [exact boot_Start_result|].
  pose proof (Start_success_session exactDecimal (boot track) allOk
                (reachable_track []) boot_Start_result) as H.
  cbv zeta in H. destruct H as (c & octx & pl & before & _ & A & B & C & _).
  exists c, octx, pl. exact (conj A (conj B C)).
Defined.

Lemma Stop_teardown_order_witness :
  exists (c : handle) (cmd : Cmd) (pl : handle),
    since playing (exec Stop playing) =
    [EvCancel c; EvWgWait (wg (self playing)); EvKill (Process cmd);
     EvWait (Process cmd); EvPlayerClose pl].
Proof.
  destruct (Stop_teardown_order exactDecimal playing reachable_playing
              playing_active) as (c & cmd & pl & octx & _ & _ & _ & _ & A & _).
  exists c, cmd, pl. exact A.
Defined.

(** Why the calls must not overlap for the four properties above.  Two
    Starts on the playing controller, the second entered while the first
    has given the lock up for its Close: both have seen the process
    handle, both close, both launch.  Two goroutines are counted then,
    both readers are live, and the player and the process of the first
    launch are out of reach. *)
Example overlapping_Starts :
  let w := exec (Close ;; Close ;;
                 launch exactDecimal allOk ;; launch exactDecimal allOk)
                playing in
  wg (self w) = 2 /\
  since playing w =
    [ EvCancel 1; EvWgWait 1; EvKill 0; EvWait 0; EvPlayerClose 3;
      EvContextClose 2;
      EvCancel 1; EvWgWait 0 ] ++
    [ EvCommand (mkCmd 4 "ffmpeg" (ffmpegArgs exactDecimal track));
      EvStdoutPipe 4 None; EvWithCancel 5; EvCmdStart 4 None;
      EvNewContext 44100 2 2 4096 (inl 6); EvWgAdd 1; EvNewPlayer 6 7;
      EvGo 7 (NewReader 5 4) ] ++
    [ EvCommand (mkCmd 8 "ffmpeg" (ffmpegArgs exactDecimal track));
      EvStdoutPipe 8 None; EvWithCancel 9; EvCmdStart 8 None;
      EvWgAdd 1; EvNewPlayer 6 10; EvGo 10 (NewReader 9 8) ] /\
  cancelPlayback (self w) = Some 9 /\
  player (self w) = Some 10 /\
  cancelled (trace (exec Close w)) = [1; 1; 9] /\
  countEv (isKill 4) (trace (exec Close w)) = 0 /\
  filter isPlayerClose (trace (exec Close w)) =
    [EvPlayerClose 3; EvPlayerClose 10].
Proof. vm_compute. repeat split. Qed.
